(** * repo2prompt: the fetch-and-assemble pipeline, embedded and verified

    The repository holds two versions of one program:
    - [repo2prompt_async.py]      (module [Simple] below),
    - [repo2prompt_async_prd.py]  (module [Prd] below).

    Both turn a GitHub repository into one text document: a README block,
    the directory tree, and the contents of allow-listed files.  The code is
    Python over [aiohttp], [asyncio], [base64], [urllib] and [backoff]; the
    embedding keeps the control flow of every function and takes what the
    libraries and the remote service do as a [Platform].

    - A computation is a function from a state to a result and a state.
      The state is the world (the remote service) and the trace of what the
      program did to it: requests, sleeps, waits of the retry decorator.
    - A function that awaits a call of itself nests that call on the
      interpreter's stack: the production fetch on the Retry-After path,
      the sequential walk on a subdirectory.  Such a function takes the
      number of nested calls there is room for, and the call that finds no
      room raises [RecursionError].
    - The walk of the production version hands a subdirectory to a task of
      its own, which nests nothing; it takes a fuel, and a result is a
      value, a raised exception, or [Diverged] when the fuel runs out.
      [Diverged] is not an exception ([except Exception] does not see it).
    - JSON is dynamically typed, as in Python: an operation on a value of
      the wrong type raises the [TypeError], [KeyError] or [AttributeError]
      that Python raises.
    - [print] is left out.
    - The sub-walks that [repo2prompt_async_prd.py] spawns run each as a
      whole, in the order a [schedule] gives; their results are kept by
      position and read when the parent awaits them.  The trace lists
      their requests after those of the loop that created them, in the
      order of the [schedule]; the event loop may let them out earlier,
      between the requests of that loop, and lets them out even when
      that loop raises.  What is proved of a walk is about its result, or
      about every request of a trace, which this does not touch. *)

From Stdlib Require Import ZArith List String Ascii Bool Arith Lia DecimalString.
Import ListNotations.
Local Open Scope list_scope.
Local Open Scope string_scope.

(** ** Python strings *)

Definition nl : string := String (ascii_of_nat 10) "".
Definition fence : string := "```".

(** [s.split(sep)] for a one-character separator. *)
Fixpoint split (sep : ascii) (s : string) : list string :=
  match s with
  | EmptyString => [""]
  | String c rest =>
      if Ascii.eqb c sep then "" :: split sep rest
      else match split sep rest with
           | seg :: segs => String c seg :: segs
           | [] => [String c ""]
           end
  end.

Fixpoint lstrip (c : ascii) (s : string) : string :=
  match s with
  | String a rest => if Ascii.eqb a c then lstrip c rest else s
  | EmptyString => ""
  end.

Fixpoint rstrip (c : ascii) (s : string) : string :=
  match s with
  | EmptyString => ""
  | String a rest =>
      match rstrip c rest with
      | EmptyString => if Ascii.eqb a c then "" else String a ""
      | kept => String a kept
      end
  end.

(** [s.strip(c)] for a one-character set. *)
Definition strip (c : ascii) (s : string) : string := rstrip c (lstrip c s).

(** [s.endswith(suffix)]. *)
Definition endswith (s suffix : string) : bool :=
  let n := String.length s in
  let m := String.length suffix in
  (m <=? n)%nat && String.eqb (substring (n - m) m s) suffix.

(** [x in xs] for a list of strings. *)
Definition py_in (x : string) (xs : list string) : bool :=
  existsb (String.eqb x) xs.

(** [unit * n]. *)
Fixpoint str_mul (unit : string) (n : nat) : string :=
  match n with
  | O => ""
  | S k => unit ++ str_mul unit k
  end.

Definition indent_unit : string := "    ".

(** ** JSON values as Python sees them after [response.json()]

    Numbers are integers: the fields the code reads hold no fractions.  An
    object keeps its fields in order, as a Python [dict] does. *)

#[local] Unset Elimination Schemes.
Inductive json : Type :=
| JNull
| JBool (b : bool)
| JNum (n : Z)
| JStr (s : string)
| JArr (items : list json)
| JObj (fields : list (string * json)).
#[local] Set Elimination Schemes.

Definition type_name (j : json) : string :=
  match j with
  | JNull => "NoneType"
  | JBool _ => "bool"
  | JNum _ => "int"
  | JStr _ => "str"
  | JArr _ => "list"
  | JObj _ => "dict"
  end.

Fixpoint assoc (k : string) (fields : list (string * json)) : option json :=
  match fields with
  | [] => None
  | (k', v) :: rest => if String.eqb k k' then Some v else assoc k rest
  end.

Fixpoint chars (s : string) : list json :=
  match s with
  | EmptyString => []
  | String c rest => JStr (String c "") :: chars rest
  end.

(** ** Exceptions *)

Inductive exc_class : Type :=
| ClientError            (* aiohttp.ClientError, raised by name in the code *)
| ClientResponseError    (* subclass of ClientError: raise_for_status *)
| ClientConnectionError  (* subclass of ClientError: the connection failed *)
| TimeoutError           (* asyncio.TimeoutError *)
| ValueError
| KeyError
| TypeError
| AttributeError
| UnboundLocalError
| RecursionError
| OtherException.

(** An exception object: its class and [str(e)]. *)
Record exn : Type := mk_exn { exc_cls : exc_class; exc_text : string }.

(** [isinstance(e, (aiohttp.ClientError, asyncio.TimeoutError))]: the faults
    the [backoff.on_exception] decorators name. *)
Definition is_transport_fault (e : exn) : bool :=
  match exc_cls e with
  | ClientError | ClientResponseError | ClientConnectionError | TimeoutError => true
  | _ => false
  end.

(** ** The remote service and the Python runtime *)

Record request : Type := mk_request {
  req_url : string;
  req_headers : list (string * string)
}.

Record response : Type := mk_response {
  status : Z;
  retry_after : option string;       (* response.headers.get("Retry-After", None) *)
  json_body : exn + json             (* await response.json() *)
}.

(** What the program observes of the world it runs in.  [World] is the
    state of the remote service and of the network; one [session_get] is
    one HTTP request, answered by a response or by a raised exception. *)
Class Platform : Type := {
  World : Type;
  session_get : World -> request -> (exn + response) * World;
  (** [time.time()], rounded down to whole seconds. *)
  time_time : World -> Z;
  (** [urlparse(url).path]; [inl] is the text of the [ValueError] that
      [urlparse] raises on a netloc it refuses. *)
  urlparse_path : string -> string + string;
  (** [int(s)]; [inl] is the text of the [ValueError]. *)
  py_int : string -> string + Z;
  (** [int("")] raises. *)
  py_int_empty : forall n, py_int "" <> inr n;
  (** [base64.b64decode(s).decode("utf-8")]; [inl] is the text of the
      [ValueError] ([binascii.Error] and [UnicodeDecodeError] are both
      subclasses of it). *)
  b64decode_utf8 : string -> string + string;
  (** [str(v)] of a value that is not a string, as an f-string prints it. *)
  py_repr : json -> string;
  (** [str(e)] of the [ClientResponseError] that [raise_for_status] raises. *)
  status_error_text : request -> response -> string;
  (** [str(e)] of the [RecursionError] the interpreter raises. *)
  recursion_error_text : string;
  (** Of [n] concurrent fetches that fail, the position of the one whose
      fault comes first in time; a position that is out of range counts
      as the first. *)
  first_done : World -> nat -> nat
}.

(** What the program does to the world, in order. *)
Inductive event : Type :=
| EvGet (r : request)          (* session.get(url, headers=headers) *)
| EvSleep (seconds : Z)        (* asyncio.sleep(int(retry_after)) *)
| EvSleepUntil (epoch : Z)     (* asyncio.sleep(reset_time - time.time()) *)
| EvBackoff.                   (* the wait backoff inserts between two tries *)

(** ** The monad of the embedding: state, exceptions, and fuel *)

Inductive result (A : Type) : Type :=
| Ok (a : A)
| Raised (e : exn)
| Diverged.                     (* the fuel ran out *)
Arguments Ok {A} a.
Arguments Raised {A} e.
Arguments Diverged {A}.

Section Monad.
Context `{Platform}.

Record st : Type := mk_st { world : World; trace : list event }.

Definition M (A : Type) : Type := st -> result A * st.

Definition ret {A} (a : A) : M A := fun s => (Ok a, s).
Definition raise {A} (c : exc_class) (text : string) : M A :=
  fun s => (Raised (mk_exn c text), s).
Definition reraise {A} (e : exn) : M A := fun s => (Raised e, s).
Definition diverge {A} : M A := fun s => (Diverged, s).

Definition bind {A B} (m : M A) (k : A -> M B) : M B :=
  fun s =>
    match m s with
    | (Ok a, s') => k a s'
    | (Raised e, s') => (Raised e, s')
    | (Diverged, s') => (Diverged, s')
    end.

(** [try: m  except Exception as e: handler e]. *)
Definition try_except {A} (m : M A) (handler : exn -> M A) : M A :=
  fun s =>
    match m s with
    | (Raised e, s') => handler e s'
    | other => other
    end.

Definition emit (ev : event) : M unit :=
  fun s => (Ok tt, mk_st (world s) (trace s ++ [ev])%list).

Definition lift_sum {A} (c : exc_class) (r : string + A) : M A :=
  match r with
  | inl text => raise c text
  | inr a => ret a
  end.

Definition lift_exn {A} (r : exn + A) : M A :=
  match r with
  | inl e => reraise e
  | inr a => ret a
  end.

(** [async with session.get(url, headers=headers) as response]. *)
Definition http_get (r : request) : M response :=
  fun s =>
    let '(answer, w') := session_get (world s) r in
    let s' := mk_st w' (trace s ++ [EvGet r])%list in
    match answer with
    | inl e => (Raised e, s')
    | inr resp => (Ok resp, s')
    end.

Definition now : M Z := fun s => (Ok (time_time (world s)), s).
End Monad.

Declare Scope py_scope.
Delimit Scope py_scope with py.
Notation "x <- m ;; k" := (bind m (fun x => k))
  (at level 61, m at next level, right associativity) : py_scope.
Notation "' pat <- m ;; k" := (bind m (fun x => match x with pat => k end))
  (at level 61, pat pattern, m at next level, right associativity) : py_scope.
Notation "m ;;; k" := (bind m (fun _ => k))
  (at level 61, right associativity) : py_scope.
Local Open Scope py_scope.

(** ** Dynamic typing: what the operations of the code do on a JSON value *)

Definition dq : string := String (ascii_of_nat 34) "".
Definition sq : string := "'".

Definition throw {A} (c : exc_class) (text : string) : exn + A :=
  inl (mk_exn c text).

(** [v[key]] for a string key. *)
Definition getitem (v : json) (key : string) : exn + json :=
  match v with
  | JObj fields =>
      match assoc key fields with
      | Some x => inr x
      | None => throw KeyError (sq ++ key ++ sq)
      end
  | JArr _ => throw TypeError "list indices must be integers or slices, not str"
  | JStr _ => throw TypeError "string indices must be integers, not 'str'"
  | _ => throw TypeError (sq ++ type_name v ++ "' object is not subscriptable")
  end.

(** [for item in v]: the items the loop visits. *)
Definition py_iter (v : json) : exn + list json :=
  match v with
  | JArr items => inr items
  | JObj fields => inr (map (fun kv => JStr (fst kv)) fields)
  | JStr s => inr (chars s)
  | _ => throw TypeError (sq ++ type_name v ++ "' object is not iterable")
  end.

(** [v.split("/")]. *)
Definition py_split (v : json) : exn + list string :=
  match v with
  | JStr s => inr (split "/" s)
  | _ => throw AttributeError
           (sq ++ type_name v ++ "' object has no attribute 'split'")
  end.

(** [v.endswith((suffix, ...))]. *)
Definition py_endswith (v : json) (suffixes : list string) : exn + bool :=
  match v with
  | JStr s => inr (existsb (endswith s) suffixes)
  | _ => throw AttributeError
           (sq ++ type_name v ++ "' object has no attribute 'endswith'")
  end.

(** [v == text]. *)
Definition py_eq_str (v : json) (text : string) : bool :=
  match v with
  | JStr s => String.eqb s text
  | _ => false
  end.

(** [f"{v}"]. *)
Definition py_format `{Platform} (v : json) : string :=
  match v with
  | JStr s => s
  | _ => py_repr v
  end.

(** [prefix + v] where [prefix] is a [str]. *)
Definition py_concat (prefix : string) (v : json) : exn + string :=
  match v with
  | JStr s => inr (prefix ++ s)
  | _ => throw TypeError
           ("can only concatenate str (not " ++ dq ++ type_name v ++ dq ++ ") to str")
  end.

(** The integer a number or a bool compares as; [inl] is its type's name. *)
Definition py_number (v : json) : string + Z :=
  match v with
  | JNum n => inr n
  | JBool b => inr (if b then 1%Z else 0%Z)
  | _ => inl (type_name v)
  end.

(** [v < bound] for an [int] bound. *)
Definition py_lt_int (v : json) (bound : Z) : exn + bool :=
  match py_number v with
  | inr n => inr (n <? bound)%Z
  | inl ty => throw TypeError
      ("'<' not supported between instances of '" ++ ty ++ "' and 'int'")
  end.

(** [v > t] for a [float] [t] whose floor is [t_floor]: an integer is above
    [t] exactly when it is above its floor. *)
Definition py_gt_time (v : json) (t_floor : Z) : exn + bool :=
  match py_number v with
  | inr n => inr (t_floor <? n)%Z
  | inl ty => throw TypeError
      ("'>' not supported between instances of '" ++ ty ++ "' and 'float'")
  end.

(** ** Code shared by the two versions *)

Definition marker : string := ".github".

Definition allow_list : list string :=
  [".py"; ".ipynb"; ".html"; ".css"; ".js"; ".jsx"; ".rst"; ".md"].

(** [parse_github_url]: the same text in both files. *)
Definition parse_github_url `{Platform} (url : string) : exn + (string * string) :=
  match urlparse_path url with
  | inl text => throw ValueError text
  | inr path =>
      let path_segments := split "/" (strip "/" path) in
      if (2 <=? List.length path_segments)%nat
      then inr (nth 0 path_segments "", nth 1 path_segments "")
      else throw ValueError "Invalid GitHub URL provided!"
  end.

(** [get_file_content]: the same text in both files. *)
Definition get_file_content `{Platform} (file_info : json) : exn + json :=
  match getitem file_info "encoding" with
  | inl e => inl e
  | inr encoding =>
      if py_eq_str encoding "base64" then
        match getitem file_info "content" with
        | inl e => inl e
        | inr (JStr text) =>
            match b64decode_utf8 text with
            | inl why => throw ValueError why
            | inr decoded => inr (JStr decoded)
            end
        | inr other =>
            throw TypeError
              ("argument should be a bytes-like object or ASCII string, not '"
                 ++ type_name other ++ sq)
        end
      else getitem file_info "content"
  end.

Definition contents_url (owner repo path : string) : string :=
  "https://api.github.com/repos/" ++ owner ++ "/" ++ repo ++ "/contents/" ++ path.

(** [if token:] is true of a string that is not empty. *)
Definition truthy (s : option string) : bool :=
  match s with
  | Some (String _ _) => true
  | _ => false
  end.

Definition contents_headers (token : option string) : list (string * string) :=
  ("Accept", "application/vnd.github.v3+json")
    :: match token with
       | Some t => if truthy token then [("Authorization", "Bearer " ++ t)] else []
       | None => []
       end.

Definition contents_request (owner repo path : string) (token : option string)
  : request :=
  mk_request (contents_url owner repo path) (contents_headers token).

Section Shared.
Context `{Platform}.

(** [response.raise_for_status()]: raises from status 400 on, and is
    otherwise a call that returns [None]. *)
Definition raise_for_status (req : request) (resp : response) : M json :=
  if (400 <=? status resp)%Z
  then raise ClientResponseError (status_error_text req resp)
  else ret JNull.

(** The tree line of an entry at a depth. *)
Definition dir_line (indent : nat) (name : json) : string :=
  str_mul indent_unit indent ++ "[" ++ py_format name ++ "/]" ++ nl.

Definition file_line (indent : nat) (name : json) : string :=
  str_mul indent_unit indent ++ py_format name ++ nl.
End Shared.

(** ** [repo2prompt_async.py] *)

Module Simple.
Section Code.
Context `{Platform}.
Variables (owner repo : string) (token : option string).

Definition fetch_repo_content (path : string) : M json :=
  let req := contents_request owner repo path token in
  response <- http_get req ;;
  if (status response =? 200)%Z
  then lift_exn (json_body response)
  else raise_for_status req response.

(** The body of the [for item in items] loop of [build_directory_tree].
    [recur] is the function itself, called on a subdirectory; [next] is
    the rest of the loop, given the values of [tree_str] and
    [file_fetch_tasks] it starts from.  [file_fetch_tasks] holds the
    paths of the fetches that [asyncio.gather] runs after the loop. *)
Definition visit (recur : string -> nat -> M (string * list json))
    (indent : nat) (item : json)
    (next : string -> list string -> M (string * list string))
    (tree_str : string) (file_fetch_tasks : list string)
  : M (string * list string) :=
  path <- lift_exn (getitem item "path") ;;
  segments <- lift_exn (py_split path) ;;
  if py_in marker segments
  then next tree_str file_fetch_tasks
  else
    type <- lift_exn (getitem item "type") ;;
    if py_eq_str type "dir" then
      name <- lift_exn (getitem item "name") ;;
      let tree_str := tree_str ++ dir_line indent name in
      '(sub_tree_str, _) <- recur (py_format path) (S indent) ;;
      next (tree_str ++ sub_tree_str) file_fetch_tasks
    else
      name <- lift_exn (getitem item "name") ;;
      let tree_str := tree_str ++ file_line indent name in
      allowed <- lift_exn (py_endswith name allow_list) ;;
      if allowed
      then next tree_str (file_fetch_tasks ++ [py_format path])%list
      else next tree_str file_fetch_tasks.

Fixpoint walk_items (recur : string -> nat -> M (string * list json))
    (indent : nat) (items : list json)
    (tree_str : string) (file_fetch_tasks : list string)
  : M (string * list string) :=
  match items with
  | [] => ret (tree_str, file_fetch_tasks)
  | item :: rest =>
      visit recur indent item (walk_items recur indent rest)
        tree_str file_fetch_tasks
  end.

(** The fetches that [asyncio.gather] starts: every one of them is
    started, in the order of the list, whether an earlier one fails or
    not.  A fetch is one request, so the requests go out in that order. *)
Fixpoint start_all (paths : list string) (s : st) : list (result json) * st :=
  match paths with
  | [] => ([], s)
  | p :: rest =>
      let '(r, s1) := fetch_repo_content p s in
      let '(rs, s2) := start_all rest s1 in
      (r :: rs, s2)
  end.

(** The exceptions among the outcomes of the fetches, in list order. *)
Fixpoint faults (rs : list (result json)) : list exn :=
  match rs with
  | [] => []
  | Raised e :: rest => e :: faults rest
  | _ :: rest => faults rest
  end.

(** The values the fetches returned, in list order, when all returned. *)
Fixpoint values (rs : list (result json)) : result (list json) :=
  match rs with
  | [] => Ok []
  | Ok v :: rest =>
      match values rest with
      | Ok vs => Ok (v :: vs)
      | other => other
      end
  | Raised e :: _ => Raised e
  | Diverged :: _ => Diverged
  end.

(** [await asyncio.gather] over [file_fetch_tasks]: the results in the
    order of the list when every fetch returns; when some fail, the fault
    that comes first in time, which is for the platform to say. *)
Definition gather (paths : list string) : M (list json) :=
  fun s =>
    let '(rs, s') := start_all paths s in
    match faults rs with
    | [] => (values rs, s')
    | e :: later =>
        (Raised (nth (first_done (world s') (S (List.length later)))
                   (e :: later) e), s')
    end.

(** [[get_file_content(file_info) for file_info in file_contents]]. *)
Fixpoint decode_all (file_contents : list json) : exn + list json :=
  match file_contents with
  | [] => inr []
  | file_info :: rest =>
      match get_file_content file_info with
      | inl e => inl e
      | inr decoded =>
          match decode_all rest with
          | inl e => inl e
          | inr others => inr (decoded :: others)
          end
      end
  end.

(** [build_directory_tree] awaits itself on a subdirectory, so that the
    walks nest on the interpreter's stack: [fuel] is the number of nested
    walks the recursion limit leaves room for. *)
Fixpoint build_directory_tree (fuel : nat) (path : string) (indent : nat)
  : M (string * list json) :=
  match fuel with
  | O => raise RecursionError recursion_error_text
  | S fuel' =>
      listing <- fetch_repo_content path ;;
      items <- lift_exn (py_iter listing) ;;
      '(tree_str, file_fetch_tasks) <-
        walk_items (build_directory_tree fuel') indent items "" [] ;;
      file_contents <- gather file_fetch_tasks ;;
      file_contents_decoded <- lift_exn (decode_all file_contents) ;;
      ret (tree_str, file_contents_decoded)
  end.

(** The loop that appends the collected contents to the document. *)
Fixpoint append_contents (file_contents : list json) (formatted_string : string)
  : exn + string :=
  match file_contents with
  | [] => inr formatted_string
  | file_content :: rest =>
      match py_concat (nl ++ fence) file_content with
      | inl e => inl e
      | inr block => append_contents rest (formatted_string ++ block ++ fence ++ nl)
      end
  end.

Definition readme_block (readme_content : json) : string :=
  "README.md:" ++ nl ++ fence ++ nl ++ py_format readme_content ++ nl ++ fence
    ++ nl ++ nl.

Definition readme_fallback : string :=
  "README.md: Not found or error fetching README" ++ nl ++ nl.

Definition tree_section (directory_tree : string) : string :=
  "Directory Structure:" ++ nl ++ directory_tree ++ nl.

(** The body of [retrieve_github_repo_info] once the URL is parsed. *)
Definition assemble (fuel : nat) : M string :=
  formatted_string <-
    try_except
      (readme_info <- fetch_repo_content "README.md" ;;
       readme_content <- lift_exn (get_file_content readme_info) ;;
       ret (readme_block readme_content))
      (fun _ => ret readme_fallback) ;;
  '(directory_tree, file_contents) <- build_directory_tree fuel "" 0 ;;
  let formatted_string := formatted_string ++ tree_section directory_tree in
  lift_exn (append_contents file_contents formatted_string).
End Code.

Definition retrieve_github_repo_info `{Platform} (fuel : nat) (url : string)
    (token : option string) : M string :=
  '(owner, repo) <- lift_exn (parse_github_url url) ;;
  assemble owner repo token fuel.
End Simple.

(** ** [repo2prompt_async_prd.py] *)

(** The order in which the sub-walks spawned by one call of
    [build_directory_tree] complete, and the same for each of them in turn.
    [early] lists tasks (by their position in [tasks]) that complete, in that
    order, before the parent awaits them; a task it does not list completes
    when the parent awaits it. *)
#[local] Unset Elimination Schemes.
Inductive schedule : Type :=
| Sched (early : list nat) (children : list schedule).
#[local] Set Elimination Schemes.

Definition in_creation_order : schedule := Sched [] [].

Definition early (sc : schedule) : list nat :=
  match sc with Sched order _ => order end.

Definition child (sc : schedule) (i : nat) : schedule :=
  match sc with Sched _ children => nth i children in_creation_order end.

Module Prd.
Section Code.
Context `{Platform}.

(** [backoff.on_exception(backoff.expo, (aiohttp.ClientError,
    asyncio.TimeoutError), max_tries=...)]: the target is called again
    after a fault of these classes until [max_tries] calls have been
    made; the fault of the last call, and a fault of any other class, is
    raised to the caller. *)
Fixpoint retry {A} (tries_left : nat) (target : M A) : M A :=
  fun s =>
    match target s with
    | (Raised e, s') =>
        if is_transport_fault e then
          match tries_left with
          | O => (Raised e, s')
          | S fewer => (emit EvBackoff ;;; retry fewer target) s'
          end
        else (Raised e, s')
    | other => other
    end.

Definition on_exception {A} (max_tries : nat) (target : M A) : M A :=
  retry (max_tries - 1) target.

Definition rate_limit_request (token : string) : request :=
  mk_request "https://api.github.com/rate_limit"
    [("Authorization", "Bearer " ++ token)].

Definition fetch_rate_limit_status (token : string) : M json :=
  on_exception 8
    (response <- http_get (rate_limit_request token) ;;
     rate_limit_data <- lift_exn (json_body response) ;;
     lift_exn (getitem rate_limit_data "rate")).

Variables (owner repo : string) (token : option string).

Definition status_digits (code : Z) : string :=
  if (code =? 403)%Z then "403" else "429".

Definition no_retry_after (code : Z) : string :=
  "Rate limit exceeded with status " ++ status_digits code
    ++ ". No Retry-After header provided.".

(** The body of [fetch_repo_content], one try of the decorated function;
    [again] is the decorated function, which the body calls on a 403 or a
    429 that names a delay. *)
Definition fetch_once (again : M json) (path : string) : M json :=
  let req := contents_request owner repo path token in
  response <- http_get req ;;
  if (status response =? 200)%Z then lift_exn (json_body response)
  else if (status response =? 403)%Z || (status response =? 429)%Z then
    if truthy (retry_after response) then
      seconds <- lift_sum ValueError
                   (py_int (match retry_after response with
                            | Some text => text
                            | None => ""
                            end)) ;;
      emit (EvSleep seconds) ;;;
      again
    else raise ClientError (no_retry_after (status response))
  else if (status response =? 404)%Z then raise ClientError "Resource not found."
  else raise_for_status req response.

(** [fetch_repo_content] as decorated.  On the Retry-After path the
    function calls itself from inside the try, and these calls nest on the
    interpreter's stack: [room] is the number of nested calls the
    recursion limit leaves room for, and the call that finds none raises
    [RecursionError] before it asks anything.  The code itself counts
    nothing on this path. *)
Fixpoint fetch_repo_content (room : nat) (path : string) : M json :=
  match room with
  | O => raise RecursionError recursion_error_text
  | S room' => on_exception 8 (fetch_once (fetch_repo_content room' path) path)
  end.

(** The body of the [for item in items] loop of [build_directory_tree].
    [next] is the rest of the loop, given the values of [tree_str] and
    [tasks] it starts from.  [tasks] holds the paths of the sub-walks
    created so far; the semaphore of capacity 100 never makes a fetch
    fail or changes its result, and is left out. *)
Definition visit (fetch : string -> M json) (indent : nat) (item : json)
    (next : string -> list string -> M (string * list string))
    (tree_str : string) (tasks : list string)
  : M (string * list string) :=
  path <- lift_exn (getitem item "path") ;;
  segments <- lift_exn (py_split path) ;;
  if py_in marker segments
  then next tree_str tasks
  else
    type <- lift_exn (getitem item "type") ;;
    if py_eq_str type "dir" then
      name <- lift_exn (getitem item "name") ;;
      let tree_str := tree_str ++ dir_line indent name in
      next tree_str (tasks ++ [py_format path])%list
    else
      name <- lift_exn (getitem item "name") ;;
      let tree_str := tree_str ++ file_line indent name in
      allowed <- lift_exn (py_endswith name allow_list) ;;
      if allowed then
        file_info <- fetch (py_format path) ;;
        file_content <- lift_exn (get_file_content file_info) ;;
        block <- lift_exn (py_concat (str_mul indent_unit (S indent) ++ fence)
                             file_content) ;;
        next (tree_str ++ block ++ fence ++ nl) tasks
      else next tree_str tasks.

Fixpoint walk_items (fetch : string -> M json) (indent : nat)
    (items : list json) (tree_str : string) (tasks : list string)
  : M (string * list string) :=
  match items with
  | [] => ret (tree_str, tasks)
  | item :: rest =>
      visit fetch indent item (walk_items fetch indent rest) tree_str tasks
  end.

(** The results of the tasks that have completed, by position. *)
Definition table : Type := list (nat * result string).

Fixpoint completed (i : nat) (done : table) : option (result string) :=
  match done with
  | [] => None
  | (j, r) :: rest => if (i =? j)%nat then Some r else completed i rest
  end.

(** The tasks that complete before they are awaited, in the order of the
    schedule.  A position that names no task, or a task that has already
    completed, is skipped. *)
Fixpoint run_early (walk : schedule -> string -> M string) (sc : schedule)
    (tasks : list string) (order : list nat) (done : table) (s : st)
  : table * st :=
  match order with
  | [] => (done, s)
  | i :: later =>
      match nth_error tasks i, completed i done with
      | Some path, None =>
          let '(r, s') := walk (child sc i) path s in
          run_early walk sc tasks later (done ++ [(i, r)])%list s'
      | _, _ => run_early walk sc tasks later done s
      end
  end.

(** [await task]: the result of a completed task, or the task run now. *)
Definition await (walk : schedule -> string -> M string) (sc : schedule)
    (done : table) (i : nat) (path : string) : M string :=
  match completed i done with
  | Some r => fun s => (r, s)
  | None => walk (child sc i) path
  end.

(** [for task in tasks: tree_str += await task]; [i] is the position of
    the first task of [tasks] in the list of all tasks. *)
Fixpoint join (walk : schedule -> string -> M string) (sc : schedule)
    (done : table) (i : nat) (tasks : list string) (tree_str : string)
  : M string :=
  match tasks with
  | [] => ret tree_str
  | path :: rest =>
      sub_tree <- await walk sc done i path ;;
      join walk sc done (S i) rest (tree_str ++ sub_tree)
  end.

(** The fuel of a walk is also the room it gives to its fetches: what
    holds for every fuel holds for every room. *)
Fixpoint build_directory_tree (fuel : nat) (sc : schedule) (path : string)
    (indent : nat) : M string :=
  match fuel with
  | O => diverge
  | S fuel' =>
      listing <- fetch_repo_content fuel path ;;
      items <- lift_exn (py_iter listing) ;;
      '(tree_str, tasks) <-
        walk_items (fetch_repo_content fuel) indent items "" [] ;;
      let walk := fun sc' p => build_directory_tree fuel' sc' p (S indent) in
      fun s =>
        let '(done, s') := run_early walk sc tasks (early sc) [] s in
        join walk sc done 0 tasks tree_str s'
  end.

(** The rate guard at the head of [retrieve_github_repo_info]. *)
Definition rate_guard : M unit :=
  match token with
  | Some t =>
      rate <- fetch_rate_limit_status t ;;
      _ <- lift_exn (getitem rate "remaining") ;;
      _ <- lift_exn (getitem rate "limit") ;;
      remaining <- lift_exn (getitem rate "remaining") ;;
      low <- lift_exn (py_lt_int remaining 100) ;;
      if low then
        reset_time <- lift_exn (getitem rate "reset") ;;
        t_now <- now ;;
        later <- lift_exn (py_gt_time reset_time t_now) ;;
        if later then
          match py_number reset_time with
          | inr epoch => emit (EvSleepUntil epoch)
          | inl _ => ret tt
          end
        else ret tt
      else ret tt
  | None => ret tt
  end.

Definition readme_block (readme_content : json) : string :=
  "README.md:" ++ nl ++ fence ++ nl ++ py_format readme_content ++ nl ++ fence
    ++ nl ++ nl.

Definition readme_failure (e : exn) : string :=
  "Failed to retrieve README.md: " ++ exc_text e ++ nl ++ nl.

Definition tree_section (directory_tree : string) : string :=
  "Directory Structure:" ++ nl ++ directory_tree ++ nl.

Definition tree_failure (e : exn) : string :=
  "Failed to build directory tree: " ++ exc_text e ++ nl.

Definition semaphore_unbound : string :=
  "cannot access local variable 'semaphore' where it is not associated with a value".

(** The first [try] block.  Its result is the text of [formatted_string]
    after the block, and whether the local [semaphore] is bound: the
    assignment stands after the rate guard, so a fault of the rate guard
    leaves the name unbound and a fault of the README steps leaves it
    bound. *)
Definition first_block (fuel : nat) : M (bool * string) :=
  try_except
    (rate_guard ;;;
     try_except
       (readme_info <-
          match token with
          | Some _ => fetch_repo_content fuel "README.md"
          | None => raise ValueError "Token is required for fetching repo content."
          end ;;
        readme_content <- lift_exn (get_file_content readme_info) ;;
        ret (true, readme_block readme_content))
       (fun e => ret (true, readme_failure e)))
    (fun e => ret (false, readme_failure e)).

(** The second [try] block. *)
Definition second_block (fuel : nat) (sc : schedule) (semaphore_bound : bool)
    (formatted_string : string) : M string :=
  try_except
    (match token with
     | Some _ =>
         if semaphore_bound then
           directory_tree <- build_directory_tree fuel sc "" 0 ;;
           ret (formatted_string ++ tree_section directory_tree)
         else raise UnboundLocalError semaphore_unbound
     | None => raise ValueError "Token is required for building directory tree."
     end)
    (fun e => ret (formatted_string ++ tree_failure e)).

(** The body of [retrieve_github_repo_info] once the URL is parsed. *)
Definition assemble (fuel : nat) (sc : schedule) : M string :=
  '(semaphore_bound, formatted_string) <- first_block fuel ;;
  second_block fuel sc semaphore_bound formatted_string.
End Code.

Definition retrieve_github_repo_info `{Platform} (fuel : nat) (sc : schedule)
    (url : string) (token : option string) : M string :=
  '(owner, repo) <- lift_exn (parse_github_url url) ;;
  assemble owner repo token fuel sc.
End Prd.

(** ** Concrete platforms for the worked examples

    The theorems below hold for every [Platform].  The examples run the
    code on the two platforms of this section, which share a small Python
    runtime: [urlparse] for URLs of the shape scheme://host/path?query#frag
    (no check of the host, no ;parameters), [int] for plain decimal
    numerals, and a base64 decoder that refuses every text (the examples
    serve contents under another encoding). *)

Definition is_scheme_char (c : ascii) : bool :=
  let n := nat_of_ascii c in
  ((97 <=? n) && (n <=? 122) || (65 <=? n) && (n <=? 90)
   || (48 <=? n) && (n <=? 57) || (n =? 43) || (n =? 45) || (n =? 46))%nat.

Definition is_alpha (c : ascii) : bool :=
  let n := nat_of_ascii c in
  ((97 <=? n) && (n <=? 122) || (65 <=? n) && (n <=? 90))%nat.

(** What follows the scheme and its colon, when the text starts with one. *)
Fixpoint after_scheme (s : string) : option string :=
  match s with
  | EmptyString => None
  | String c rest =>
      if Ascii.eqb c ":" then Some rest
      else if is_scheme_char c then after_scheme rest
      else None
  end.

(** The text from the first character that is one of [stops]. *)
Fixpoint from_first (stops : list ascii) (s : string) : string :=
  match s with
  | EmptyString => ""
  | String c rest =>
      if existsb (Ascii.eqb c) stops then s else from_first stops rest
  end.

(** The text before the first character that is one of [stops]. *)
Fixpoint upto_first (stops : list ascii) (s : string) : string :=
  match s with
  | EmptyString => ""
  | String c rest =>
      if existsb (Ascii.eqb c) stops then "" else String c (upto_first stops rest)
  end.

Definition example_urlparse_path (url : string) : string + string :=
  let url :=
    match url with
    | String c (String _ _) =>
        if is_alpha c then
          match after_scheme url with
          | Some rest => rest
          | None => url
          end
        else url
    | _ => url
    end in
  let url :=
    match url with
    | String "/" (String "/" rest) => from_first ["/"; "?"; "#"]%char rest
    | _ => url
    end in
  inr (upto_first ["#"; "?"]%char url).

Fixpoint digits_value (s : string) (acc : Z) : option Z :=
  match s with
  | EmptyString => Some acc
  | String c rest =>
      let n := nat_of_ascii c in
      if ((48 <=? n) && (n <=? 57))%nat
      then digits_value rest (10 * acc + Z.of_nat (n - 48))%Z
      else None
  end.

Definition example_int (s : string) : string + Z :=
  match s with
  | EmptyString => inl "invalid literal for int() with base 10: ''"
  | _ =>
      match digits_value s 0 with
      | Some n => inr n
      | None => inl ("invalid literal for int() with base 10: '" ++ s ++ sq)
      end
  end.

Lemma example_int_empty (n : Z) : example_int "" <> inr n.
Proof. discriminate. Qed.

(** [str] of the scalars; the examples print no list and no dict. *)
Definition example_repr (v : json) : string :=
  match v with
  | JNull => "None"
  | JBool true => "True"
  | JBool false => "False"
  | JNum n => NilZero.string_of_int (Z.to_int n)
  | _ => "..."
  end.

(** A remote service whose answer to a request never changes. *)
Definition static (site : request -> exn + response) : Platform := {|
  World := unit;
  session_get := fun w r => (site r, w);
  time_time := fun _ => 0%Z;
  urlparse_path := example_urlparse_path;
  py_int := example_int;
  py_int_empty := example_int_empty;
  b64decode_utf8 := fun _ => inl "Incorrect padding";
  py_repr := example_repr;
  status_error_text := fun _ _ => "status error";
  recursion_error_text := "maximum recursion depth exceeded";
  first_done := fun _ _ => 0
|}.

(** A remote service that plays a script: one answer per request, whatever
    the request, and [last] for ever once the script is over. *)
Definition scripted (last : exn + response) : Platform := {|
  World := list (exn + response);
  session_get := fun w _ =>
    match w with
    | answer :: later => (answer, later)
    | [] => (last, [])
    end;
  time_time := fun _ => 0%Z;
  urlparse_path := example_urlparse_path;
  py_int := example_int;
  py_int_empty := example_int_empty;
  b64decode_utf8 := fun _ => inl "Incorrect padding";
  py_repr := example_repr;
  status_error_text := fun _ _ => "status error";
  recursion_error_text := "maximum recursion depth exceeded";
  first_done := fun _ _ => 0
|}.

Definition ok_json (v : json) : exn + response := inr (mk_response 200 None (inr v)).
Definition answer_status (code : Z) (delay : option string) : exn + response :=
  inr (mk_response code delay (inr JNull)).
Definition timed_out : exn + response := inl (mk_exn TimeoutError "").

Definition entry (name path kind : string) : json :=
  JObj [("name", JStr name); ("path", JStr path); ("type", JStr kind)].
Definition plain_file (text : string) : json :=
  JObj [("encoding", JStr "utf-8"); ("content", JStr text)].

(** A site given by the table of its contents paths under
    [repos/octo/demo]; any other URL answers 404. *)
Fixpoint serve (pages : list (string * json)) (r : request) : exn + response :=
  match pages with
  | [] => answer_status 404 None
  | (path, v) :: rest =>
      if String.eqb (req_url r) (contents_url "octo" "demo" path)
      then ok_json v
      else serve rest r
  end.

Definition start `{Platform} (w : World) : st := mk_st w [].

(** Scenario A of the specification: a file, then a directory. *)
Definition site_a : request -> exn + response :=
  serve [ ("", JArr [entry "a.py" "a.py" "file"; entry "sub" "sub" "dir"]);
          ("sub", JArr [entry "b.md" "sub/b.md" "file"]);
          ("a.py", plain_file "A");
          ("sub/b.md", plain_file "B") ].

(** A directory listed before a file of the same level. *)
Definition site_dir_first : request -> exn + response :=
  serve [ ("", JArr [entry "sub" "sub" "dir"; entry "z.txt" "z.txt" "file"]);
          ("sub", JArr [entry "b.txt" "sub/b.txt" "file"]) ].

(** A repository whose README is served and whose root listing is not. *)
Definition site_readme_only : request -> exn + response :=
  serve [ ("README.md", plain_file "hello") ].

(** A healthy repository on a service whose rate-limit endpoint answers
    with an object that has no "rate" field. *)
Definition site_no_quota (r : request) : exn + response :=
  if String.eqb (req_url r) "https://api.github.com/rate_limit"
  then inr (mk_response 404 None (inr (JObj [("message", JStr "Not Found")])))
  else serve [ ("README.md", plain_file "hello");
               ("", JArr [entry "notes.txt" "notes.txt" "file"]) ] r.

(** Two subdirectories, and an excluded entry between them. *)
Definition site_two_dirs : request -> exn + response :=
  serve [ ("", JArr [entry "x" "x" "dir";
                     entry ".github" ".github" "dir";
                     entry "y" "y" "dir"]);
          ("x", JArr [entry "1.txt" "x/1.txt" "file"]);
          ("y", JArr [entry "2.txt" "y/2.txt" "file"]);
          (".github", JArr [entry "ci.md" ".github/ci.md" "file"]) ].

Definition demo_url : string := "https://github.com/octo/demo".

(** ** What the tree walkers may ask for *)

(** [".github" in path.split("/")]. *)
Definition excluded (path : string) : bool := py_in marker (split "/" path).

(** A listing entry the walkers pass over: its path is a string with the
    marker among its segments. *)
Definition skipped (item : json) : bool :=
  match getitem item "path" with
  | inr (JStr p) => excluded p
  | _ => false
  end.

Definition kept (item : json) : bool := negb (skipped item).

(** The events of a walk from [root]: a request is for [root] itself or for
    a path with no marker segment. *)
Definition permitted (owner repo : string) (token : option string)
    (root : string) (ev : event) : Prop :=
  match ev with
  | EvGet r =>
      exists p, r = contents_request owner repo p token
                /\ (p = root \/ excluded p = false)
  | _ => True
  end.

(** [m] only adds events that satisfy [P] to the trace, and a value it
    returns satisfies [Q]. *)
Definition emits `{Platform} {A} (P : event -> Prop) (Q : A -> Prop) (m : M A)
  : Prop :=
  forall s,
    (exists evs, trace (snd (m s)) = (trace s ++ evs)%list /\ Forall P evs)
    /\ (forall a, fst (m s) = Ok a -> Q a).

(** The result of a computation does not depend on the state it starts
    from. *)
Definition steady `{Platform} {A} (m : M A) : Prop :=
  forall s1 s2, fst (m s1) = fst (m s2).

(** The sub-walk of [y] completes before the sub-walk of [x]. *)
Definition y_first : schedule := Sched [1; 0] [].

(** A transport that times out twice and then answers. *)
Definition two_timeouts (body : json) : list (exn + response) :=
  [timed_out; timed_out; ok_json body].

(** The document of the production version when no token is given. *)
Definition no_token_document : string :=
  "Failed to retrieve README.md: Token is required for fetching repo content."
    ++ nl ++ nl
    ++ "Failed to build directory tree: Token is required for building directory tree."
    ++ nl.

(** Every result the table of completed tasks holds is the result of the
    walk of the task at that position, whatever the schedule and the state
    it runs from. *)
Definition sound `{Platform} (walk : schedule -> string -> M string)
    (tasks : list string) (done : Prd.table) : Prop :=
  forall i r path,
    Prd.completed i done = Some r -> nth_error tasks i = Some path ->
    forall sc s, r = fst (walk sc path s).

(** ** Transports that fail for a while *)

(** From the world [w], the request [req] meets [n] transport faults in a
    row and is then answered 200 with the body [body]; [w'] is the world
    after that answer. *)
Inductive flaky `{Platform} (req : request) (body : json)
  : nat -> World -> World -> Prop :=
| flaky_answer w w' resp :
    session_get w req = (inr resp, w') ->
    status resp = 200%Z ->
    json_body resp = inr body ->
    flaky req body 0 w w'
| flaky_fault n w w1 w' e :
    session_get w req = (inl e, w1) ->
    is_transport_fault e = true ->
    flaky req body n w1 w' ->
    flaky req body (S n) w w'.

(** From the world [w], the request [req] meets [n] transport faults in a
    row, the last of them [e]. *)
Inductive failing `{Platform} (req : request)
  : nat -> World -> World -> exn -> Prop :=
| failing_last w w' e :
    session_get w req = (inl e, w') ->
    is_transport_fault e = true ->
    failing req 1 w w' e
| failing_fault n w w1 w' e e' :
    session_get w req = (inl e, w1) ->
    is_transport_fault e = true ->
    failing req n w1 w' e' ->
    failing req (S n) w w' e'.

(** From the world [w], the request [req] is answered [n] times in a row
    by a 403 or a 429 whose Retry-After reads as [delay] seconds, and then
    200 with the body [body]; [w'] is the world after that answer. *)
Inductive throttled `{Platform} (req : request) (delay : Z) (body : json)
  : nat -> World -> World -> Prop :=
| throttled_answer w w' resp :
    session_get w req = (inr resp, w') ->
    status resp = 200%Z ->
    json_body resp = inr body ->
    throttled req delay body 0 w w'
| throttled_wait n w w1 w' resp text :
    session_get w req = (inr resp, w1) ->
    (status resp = 403%Z \/ status resp = 429%Z) ->
    retry_after resp = Some text ->
    py_int text = inr delay ->
    throttled req delay body n w1 w' ->
    throttled req delay body (S n) w w'.

(** From the world [w], the request [req] is answered [n] times in a row
    by a 403 or a 429 whose Retry-After reads as [delay] seconds; [w'] is
    the world after the last of these answers. *)
Inductive throttling `{Platform} (req : request) (delay : Z)
  : nat -> World -> World -> Prop :=
| throttling_none w :
    throttling req delay 0 w w
| throttling_more n w w1 w' resp text :
    session_get w req = (inr resp, w1) ->
    (status resp = 403%Z \/ status resp = 429%Z) ->
    retry_after resp = Some text ->
    py_int text = inr delay ->
    throttling req delay n w1 w' ->
    throttling req delay (S n) w w'.

(** A 403 or a 429 that names no delay: it has no Retry-After, or an
    empty one. *)
Definition unannounced (resp : response) : bool :=
  ((status resp =? 403)%Z || (status resp =? 429)%Z)
  && negb (truthy (retry_after resp)).

(** From the world [w], the request [req] is answered [n] times in a row
    by a 403 or a 429 that names no delay, and then 200 with the body
    [body]; [w'] is the world after that answer. *)
Inductive limited `{Platform} (req : request) (body : json)
  : nat -> World -> World -> Prop :=
| limited_answer w w' resp :
    session_get w req = (inr resp, w') ->
    status resp = 200%Z ->
    json_body resp = inr body ->
    limited req body 0 w w'
| limited_more n w w1 w' resp :
    session_get w req = (inr resp, w1) ->
    unannounced resp = true ->
    limited req body n w1 w' ->
    limited req body (S n) w w'.

(** From the world [w], the request [req] is answered [n] times in a row
    by a 403 or a 429 that names no delay, the last time by [last]. *)
Inductive limiting `{Platform} (req : request)
  : nat -> World -> World -> response -> Prop :=
| limiting_last w w' resp :
    session_get w req = (inr resp, w') ->
    unannounced resp = true ->
    limiting req 1 w w' resp
| limiting_more n w w1 w' resp last :
    session_get w req = (inr resp, w1) ->
    unannounced resp = true ->
    limiting req n w1 w' last ->
    limiting req (S n) w w' last.

(** The trace of [n] failed tries and one more try. *)
Fixpoint tries (req : request) (n : nat) : list event :=
  match n with
  | O => [EvGet req]
  | S k => EvGet req :: EvBackoff :: tries req k
  end.

(** The trace of [n] throttled tries, each slept off, and one more try. *)
Fixpoint reissues (req : request) (delay : Z) (n : nat) : list event :=
  match n with
  | O => [EvGet req]
  | S k => EvGet req :: EvSleep delay :: reissues req delay k
  end.

(** The trace of [n] throttled tries, each slept off. *)
Fixpoint throttles (req : request) (delay : Z) (n : nat) : list event :=
  match n with
  | O => []
  | S k => EvGet req :: EvSleep delay :: throttles req delay k
  end.

Definition is_get (ev : event) : bool :=
  match ev with EvGet _ => true | _ => false end.

(** The number of requests a trace records. *)
Definition attempts (evs : list event) : nat :=
  List.length (filter is_get evs).

(** ** Notions the further properties use *)

(** [c in s] for a character [c]. *)
Fixpoint contains (c : ascii) (s : string) : bool :=
  match s with
  | EmptyString => false
  | String a rest => Ascii.eqb a c || contains c rest
  end.

(** An answer that one try of the production fetch turns into a fault:
    an error status, unless it is a 403 or a 429 that names a delay. *)
Definition is_refusal (resp : response) : bool :=
  (400 <=? status resp)%Z
  && negb (((status resp =? 403)%Z || (status resp =? 429)%Z)
           && truthy (retry_after resp)).

(** The fault that a try raises on such an answer. *)
Definition status_fault `{Platform} (req : request) (resp : response) : exn :=
  if ((status resp =? 403)%Z || (status resp =? 429)%Z)
  then mk_exn ClientError (Prd.no_retry_after (status resp))
  else if (status resp =? 404)%Z
       then mk_exn ClientError "Resource not found."
       else mk_exn ClientResponseError (status_error_text req resp).

(** From the world [w], the request [req] is refused [n] times in a row,
    the last time by the answer [resp]. *)
Inductive refusing `{Platform} (req : request)
  : nat -> World -> World -> response -> Prop :=
| refusing_last w w' resp :
    session_get w req = (inr resp, w') ->
    is_refusal resp = true ->
    refusing req 1 w w' resp
| refusing_more n w w1 w' resp last :
    session_get w req = (inr resp, w1) ->
    is_refusal resp = true ->
    refusing req n w1 w' last ->
    refusing req (S n) w w' last.

(** A service that throttles every request for one second. *)
Definition site_busy (r : request) : exn + response :=
  answer_status 429 (Some "1").

(** A service with five requests left until the reset at second 100. *)
Definition low_quota : json :=
  JObj [("limit", JNum 5000); ("remaining", JNum 5); ("reset", JNum 100)].

(** A service whose rate object has no "limit" field. *)
Definition site_unlimited (r : request) : exn + response :=
  if String.eqb (req_url r) "https://api.github.com/rate_limit"
  then ok_json (JObj [("rate", JObj [("remaining", JNum 5);
                                     ("reset", JNum 100)])])
  else site_a r.

Definition site_low_quota (r : request) : exn + response :=
  if String.eqb (req_url r) "https://api.github.com/rate_limit"
  then ok_json (JObj [("rate", low_quota)])
  else site_a r.

(** The outcome of a loop that started from an empty [tree_str] and no
    task, seen from a loop that started from [tree_str] and [tasks]. *)
Definition grown {S : Type} (tree_str : string) (tasks : list string)
    (r : result (string * list string) * S) : result (string * list string) * S :=
  (match fst r with
   | Ok (text, more) => Ok (tree_str ++ text, (tasks ++ more)%list)
   | Raised e => Raised e
   | Diverged => Diverged
   end, snd r).

(** The path of an entry, as the f-string of the URL prints it. *)
Definition entry_path `{Platform} (item : json) : string :=
  match getitem item "path" with
  | inr path => py_format path
  | inl _ => ""
  end.

(** An entry the walkers expand: a directory that is not skipped. *)
Definition subdir (item : json) : bool :=
  match getitem item "path", getitem item "type" with
  | inr (JStr p), inr type => negb (excluded p) && py_eq_str type "dir"
  | _, _ => false
  end.

(** An entry whose content the walkers fetch: not skipped, not a
    directory, and named with an allow-listed suffix. *)
Definition fetchable (item : json) : bool :=
  match getitem item "path", getitem item "type", getitem item "name" with
  | inr (JStr p), inr type, inr (JStr name) =>
      negb (excluded p) && negb (py_eq_str type "dir")
      && existsb (endswith name) allow_list
  | _, _, _ => false
  end.

(** The two sections of a document of the production version. *)
Definition readme_part `{Platform} (text : string) : Prop :=
  (exists content, text = Prd.readme_block content)
  \/ (exists e, text = Prd.readme_failure e).

Definition tree_part (text : string) : Prop :=
  (exists tree, text = Prd.tree_section tree)
  \/ (exists e, text = Prd.tree_failure e).

(** The fenced blocks that the sequential version appends. *)
Fixpoint fenced (texts : list string) : string :=
  match texts with
  | [] => ""
  | text :: rest => ((nl ++ fence) ++ text) ++ fence ++ nl ++ fenced rest
  end.

(** * Properties *)

(** ** Strings *)

Lemma lstrip_head (c : ascii) (s : string) :
  lstrip c s = "" \/ exists a t, lstrip c s = String a t /\ a <> c.
Proof.
  induction s as [|a rest IH]; simpl; [now left|].
  destruct (Ascii.eqb_spec a c) as [->|Hne]; [exact IH|].
  right. now exists a, rest.
Qed.

Lemma rstrip_head (c a : ascii) (t : string) :
  a <> c -> exists t', rstrip c (String a t) = String a t'.
Proof.
  intros Hne. simpl.
  destruct (rstrip c t) as [|b kept].
  - destruct (Ascii.eqb_spec a c); [contradiction|]. now exists "".
  - now exists (String b kept).
Qed.

Lemma rstrip_no_trailing (c : ascii) (s pre : string) :
  rstrip c s <> pre ++ String c "".
Proof.
  revert pre. induction s as [|x rest IH]; intros pre; simpl.
  - destruct pre; discriminate.
  - destruct (rstrip c rest) as [|b kept] eqn:Hrest.
    + destruct (Ascii.eqb_spec x c) as [->|Hne].
      * destruct pre; discriminate.
      * destruct pre as [|p pre]; simpl.
        -- intros Heq. injection Heq as Heq. contradiction.
        -- intros Heq. injection Heq as _ Heq. destruct pre; discriminate.
    + destruct pre as [|p pre]; simpl.
      * intros Heq. injection Heq as _ Heq. discriminate.
      * intros Heq. injection Heq as _ Heq. exact (IH pre Heq).
Qed.

(** A text that splits into two segments or more is its first segment, the
    separator, and a text that splits into the other segments. *)
Lemma split_second (sep : ascii) (s a b : string) (rest : list string) :
  split sep s = a :: b :: rest ->
  exists t, s = a ++ String sep t /\ split sep t = b :: rest.
Proof.
  revert a. induction s as [|c s' IH]; intros a; simpl.
  - discriminate.
  - destruct (Ascii.eqb_spec c sep) as [->|Hne].
    + intros Heq. injection Heq as <- Heq. now exists s'.
    + destruct (split sep s') as [|seg segs] eqn:Hs'; [discriminate|].
      intros Heq. injection Heq as <- ->.
      destruct (IH seg eq_refl) as [t [-> Ht]].
      now exists t.
Qed.

Lemma split_empty_first (sep : ascii) (t : string) (rest : list string) :
  split sep t = "" :: rest ->
  (t = "" /\ rest = []) \/ exists t', t = String sep t'.
Proof.
  destruct t as [|c t']; simpl.
  - intros Heq. injection Heq as <-. now left.
  - destruct (Ascii.eqb_spec c sep) as [->|Hne].
    + intros _. right. now exists t'.
    + destruct (split sep t'); discriminate.
Qed.

Lemma strip_head (c : ascii) (s : string) :
  strip c s = "" \/ exists a t, strip c s = String a t /\ a <> c.
Proof.
  unfold strip. destruct (lstrip_head c s) as [->|[a [t [-> Hne]]]].
  - now left.
  - right. destruct (rstrip_head c a t Hne) as [t' ->]. now exists a, t'.
Qed.

(** The first segment of a stripped text that has two segments or more
    holds a character. *)
Lemma strip_first_segment (c : ascii) (s a b : string) (rest : list string) :
  split c (strip c s) = a :: b :: rest -> a <> "".
Proof.
  destruct (strip_head c s) as [->|[x [t [-> Hne]]]]; simpl.
  - discriminate.
  - destruct (Ascii.eqb_spec x c); [contradiction|].
    destruct (split c t); intros Heq; injection Heq as <- _; discriminate.
Qed.

(** ** The input locator *)

(** C7, as the code has it: [parse_github_url] rejects a locator with a
    [ValueError], or returns the first two segments of the URL path once
    its leading and trailing slashes are stripped.  The owner is never
    empty; the name is empty only when a doubled slash follows the owner
    in the path. *)
Theorem parse_github_url_segments `{Platform} (url : string) :
  match parse_github_url url with
  | inr (owner, name) =>
      owner <> ""
      /\ (exists path rest,
            urlparse_path url = inr path
            /\ split "/" (strip "/" path) = owner :: name :: rest)
      /\ (name = "" ->
          exists path tail,
            urlparse_path url = inr path
            /\ strip "/" path = owner ++ "//" ++ tail)
  | inl e => exc_cls e = ValueError
  end.
Proof.
  unfold parse_github_url.
  destruct (urlparse_path url) as [text|path] eqn:Hpath; [reflexivity|].
  destruct (split "/" (strip "/" path)) as [|a [|b rest]] eqn:Hsplit; simpl;
    try reflexivity.
  split; [exact (strip_first_segment _ _ _ _ _ Hsplit)|].
  split; [now exists path, rest|].
  intros ->. exists path.
  destruct (split_second _ _ _ _ _ Hsplit) as [t [Hs Ht]].
  destruct (split_empty_first _ _ _ Ht) as [[-> _]|[t' ->]].
  - exfalso. unfold strip in Hs. exact (rstrip_no_trailing _ _ _ Hs).
  - now exists t'.
Qed.

(** C7, the counterexample: a locator with a doubled slash after the owner
    is accepted, and its name is empty. *)
Lemma parse_github_url_empty_name :
  @parse_github_url (static site_a) "https://github.com/octo//demo"
  = inr ("octo", "").
Proof. reflexivity. Qed.

(** ** The monad *)

Section MonadFacts.
Context `{Platform}.

Lemma bind_ok {A B} (m : M A) (k : A -> M B) s a s' :
  m s = (Ok a, s') -> bind m k s = k a s'.
Proof. unfold bind. now intros ->. Qed.

Lemma bind_raised {A B} (m : M A) (k : A -> M B) s e s' :
  m s = (Raised e, s') -> bind m k s = (Raised e, s').
Proof. unfold bind. now intros ->. Qed.

Lemma http_get_answer (r : request) s resp w' :
  session_get (world s) r = (inr resp, w') ->
  http_get r s = (Ok resp, mk_st w' (trace s ++ [EvGet r])%list).
Proof. unfold http_get. now intros ->. Qed.

Lemma http_get_fault (r : request) s e w' :
  session_get (world s) r = (inl e, w') ->
  http_get r s = (Raised e, mk_st w' (trace s ++ [EvGet r])%list).
Proof. unfold http_get. now intros ->. Qed.
End MonadFacts.

(** ** The retrying fetcher of the production version *)

Section Fetcher.
Context `{Platform}.
Variables (owner repo : string) (token : option string).

Local Abbreviation fetch_once := (Prd.fetch_once owner repo token).
Local Abbreviation fetch_repo_content :=
  (Prd.fetch_repo_content owner repo token).
Local Abbreviation req_of path := (contents_request owner repo path token).

Lemma fetch_unfold fuel path :
  fetch_repo_content (S fuel) path
  = Prd.on_exception 8 (fetch_once (fetch_repo_content fuel path) path).
Proof. reflexivity. Qed.

Lemma retry_ok {A} (target : M A) k s a s' :
  target s = (Ok a, s') -> Prd.retry k target s = (Ok a, s').
Proof. destruct k; simpl; now intros ->. Qed.

Lemma retry_last {A} (target : M A) s e s' :
  target s = (Raised e, s') -> Prd.retry 0 target s = (Raised e, s').
Proof. simpl. intros ->. now destruct (is_transport_fault e). Qed.

Lemma retry_again {A} (target : M A) k s e s' :
  target s = (Raised e, s') -> is_transport_fault e = true ->
  Prd.retry (S k) target s
  = Prd.retry k target (mk_st (world s') (trace s' ++ [EvBackoff])%list).
Proof. simpl. intros -> Hcls. now rewrite Hcls. Qed.

Lemma fetch_once_fault again path s e w' :
  session_get (world s) (req_of path) = (inl e, w') ->
  fetch_once again path s
  = (Raised e, mk_st w' (trace s ++ [EvGet (req_of path)])%list).
Proof.
  intros Hget. unfold Prd.fetch_once.
  apply bind_raised. now apply http_get_fault.
Qed.

Lemma fetch_once_200 again path s resp w' body :
  session_get (world s) (req_of path) = (inr resp, w') ->
  status resp = 200%Z -> json_body resp = inr body ->
  fetch_once again path s
  = (Ok body, mk_st w' (trace s ++ [EvGet (req_of path)])%list).
Proof.
  intros Hget Hstatus Hbody. unfold Prd.fetch_once.
  rewrite (bind_ok _ _ _ _ _ (http_get_answer _ _ _ _ Hget)).
  now rewrite Hstatus, Hbody.
Qed.

(** A 403 or a 429 that names a delay: the try sleeps and calls the
    decorated function again. *)
Lemma fetch_once_delay again path s resp w' text seconds :
  session_get (world s) (req_of path) = (inr resp, w') ->
  status resp = 403%Z \/ status resp = 429%Z ->
  retry_after resp = Some text -> py_int text = inr seconds ->
  fetch_once again path s
  = again (mk_st w' (trace s ++ [EvGet (req_of path); EvSleep seconds])%list).
Proof.
  intros Hget Hstatus Hheader Hint. unfold Prd.fetch_once.
  rewrite (bind_ok _ _ _ _ _ (http_get_answer _ _ _ _ Hget)).
  assert (Hcode : ((status resp =? 200) = false
                   /\ (status resp =? 403) || (status resp =? 429) = true)%Z).
  { destruct Hstatus as [-> | ->]; now split. }
  destruct Hcode as [-> ->]. rewrite Hheader.
  destruct text as [|c text]; [now apply py_int_empty in Hint|]. simpl.
  rewrite Hint. unfold bind, lift_sum, ret, emit. simpl.
  now rewrite <- app_assoc.
Qed.

(** A 403 or a 429 that names no delay: the try raises a fault of the
    class the outer tier retries. *)
Lemma fetch_once_no_delay again path s resp w' :
  session_get (world s) (req_of path) = (inr resp, w') ->
  status resp = 403%Z \/ status resp = 429%Z ->
  retry_after resp = None ->
  fetch_once again path s
  = (Raised (mk_exn ClientError (Prd.no_retry_after (status resp))),
     mk_st w' (trace s ++ [EvGet (req_of path)])%list).
Proof.
  intros Hget Hstatus Hheader. unfold Prd.fetch_once.
  rewrite (bind_ok _ _ _ _ _ (http_get_answer _ _ _ _ Hget)).
  assert (Hcode : ((status resp =? 200) = false
                   /\ (status resp =? 403) || (status resp =? 429) = true)%Z).
  { destruct Hstatus as [-> | ->]; now split. }
  destruct Hcode as [-> ->]. now rewrite Hheader.
Qed.

Lemma attempts_tries (r : request) (n : nat) : attempts (tries r n) = n + 1.
Proof.
  unfold attempts. induction n as [|n IH]; simpl; [reflexivity|].
  now rewrite IH.
Qed.

Lemma attempts_reissues (r : request) (d : Z) (n : nat) :
  attempts (reissues r d n) = n + 1.
Proof.
  unfold attempts. induction n as [|n IH]; simpl; [reflexivity|].
  now rewrite IH.
Qed.

Lemma retry_flaky again path body n w w' :
  flaky (req_of path) body n w w' ->
  forall k tr, n <= k ->
    Prd.retry k (fetch_once again path) (mk_st w tr)
    = (Ok body, mk_st w' (tr ++ tries (req_of path) n)%list).
Proof.
  induction 1 as [w w' resp Hget Hstatus Hbody
                 | n w w1 w' e Hget Hcls _ IH]; intros k tr Hk.
  - apply retry_ok. now apply (fetch_once_200 again path (mk_st w tr) resp).
  - destruct k as [|k]; [lia|].
    rewrite (retry_again _ _ _ e _
               (fetch_once_fault again path (mk_st w tr) e w1 Hget) Hcls).
    simpl. rewrite IH by lia. now rewrite <- !app_assoc.
Qed.

Lemma failing_positive path n w w' e :
  failing (req_of path) n w w' e -> 1 <= n.
Proof. induction 1; lia. Qed.

Lemma retry_failing again path n w w' e :
  failing (req_of path) n w w' e ->
  forall tr,
    Prd.retry (n - 1) (fetch_once again path) (mk_st w tr)
    = (Raised e, mk_st w' (tr ++ tries (req_of path) (n - 1))%list).
Proof.
  induction 1 as [w w' e Hget Hcls
                 | n w w1 w' e e' Hget Hcls Hrest IH]; intros tr.
  - simpl. apply retry_last.
    now apply (fetch_once_fault again path (mk_st w tr)).
  - pose proof (failing_positive _ _ _ _ _ Hrest) as Hn.
    replace (S n - 1) with (S (n - 1)) by lia.
    rewrite (retry_again _ _ _ e _
               (fetch_once_fault again path (mk_st w tr) e w1 Hget) Hcls).
    simpl. rewrite IH. now rewrite <- !app_assoc.
Qed.

(** C4: the outer tier tries at most eight times.  When the transport
    fails [n <= 7] times and then answers 200, the fetch returns that
    answer after [n + 1] requests; when it fails eight times, the fetch
    raises the eighth fault after eight requests. *)
Theorem outer_tier_bound (fuel : nat) (path : string) (s : st) :
  (forall n body w',
      flaky (req_of path) body n (world s) w' -> n <= 7 ->
      fetch_repo_content (S fuel) path s
      = (Ok body, mk_st w' (trace s ++ tries (req_of path) n)%list)
      /\ attempts (tries (req_of path) n) = n + 1)
  /\ (forall w' e,
      failing (req_of path) 8 (world s) w' e ->
      fetch_repo_content (S fuel) path s
      = (Raised e, mk_st w' (trace s ++ tries (req_of path) 7)%list)
      /\ attempts (tries (req_of path) 7) = 8).
Proof.
  destruct s as [w tr]. cbn [world trace]. split.
  - intros n body w' Hflaky Hn. split; [|apply attempts_tries].
    rewrite fetch_unfold. unfold Prd.on_exception. now apply retry_flaky.
  - intros w' e Hfail. split; [|exact (attempts_tries _ 7)].
    rewrite fetch_unfold. unfold Prd.on_exception.
    exact (retry_failing _ path 8 w w' e Hfail tr).
Qed.

Lemma fetch_throttled path delay body n w w' :
  throttled (req_of path) delay body n w w' ->
  forall fuel tr,
    fetch_repo_content (S (n + fuel)) path (mk_st w tr)
    = (Ok body, mk_st w' (tr ++ reissues (req_of path) delay n)%list).
Proof.
  induction 1 as [w w' resp Hget Hstatus Hbody
                 | n w w1 w' resp text Hget Hstatus Hheader Hint _ IH];
    intros fuel tr; rewrite fetch_unfold; unfold Prd.on_exception;
    apply retry_ok.
  - now apply (fetch_once_200 _ path (mk_st w tr) resp).
  - rewrite (fetch_once_delay _ path (mk_st w tr) resp w1 text delay
               Hget Hstatus Hheader Hint).
    cbn [world trace Nat.add]. rewrite IH. cbn [reissues].
    now rewrite <- app_assoc.
Qed.

End Fetcher.

(** C4, at a concrete transport: two timeouts and an answer make three
    requests; a transport that only times out is given up after eight. *)
Lemma outer_tier_bound_witness :
  let P := scripted timed_out in
  let req := contents_request "octo" "demo" "a.py" None in
  (@Prd.fetch_repo_content P "octo" "demo" None 1 "a.py"
     (@start P (two_timeouts (JStr "A")))
   = (Ok (JStr "A"), @mk_st P [] (tries req 2))
   /\ attempts (tries req 2) = 3)
  /\ (@Prd.fetch_repo_content P "octo" "demo" None 1 "a.py" (@start P [])
      = (Raised (mk_exn TimeoutError ""), @mk_st P [] (tries req 7))
      /\ attempts (tries req 7) = 8).
Proof.
  intros P req.
  pose proof (@outer_tier_bound P "octo" "demo" None 0 "a.py"
                (@start P (two_timeouts (JStr "A")))) as [Hflaky _].
  pose proof (@outer_tier_bound P "octo" "demo" None 0 "a.py"
                (@start P [])) as [_ Hfail].
  split.
  - apply (Hflaky 2 (JStr "A") []); [|lia].
    repeat (eapply flaky_fault; [reflexivity|reflexivity|]).
    now eapply flaky_answer.
  - apply (Hfail [] (mk_exn TimeoutError "")).
    do 7 (eapply failing_fault; [reflexivity|reflexivity|]).
    now eapply failing_last.
Defined.

(** C3, on a service that answers 404 for good: the fetch asks eight times,
    with seven waits of the outer tier, before the caller sees the fault. *)
Lemma not_found_is_retried :
  let P := scripted (answer_status 404 None) in
  let req := contents_request "octo" "demo" "missing.md" None in
  @Prd.fetch_repo_content P "octo" "demo" None 1 "missing.md" (@start P [])
  = (Raised (mk_exn ClientError "Resource not found."),
     @mk_st P []
       [EvGet req; EvBackoff; EvGet req; EvBackoff; EvGet req; EvBackoff;
        EvGet req; EvBackoff; EvGet req; EvBackoff; EvGet req; EvBackoff;
        EvGet req; EvBackoff; EvGet req]).
Proof. reflexivity. Qed.

(** ** The assembler *)

(** C10: without a token the production version asks the service nothing.
    Once the locator is parsed, both steps raise the token-required
    [ValueError] inside their [try] blocks, and the document is the two
    diagnostic lines; the state, and with it the trace of requests, is the
    one the call started from. *)
Theorem no_token_no_fetch `{Platform} (fuel : nat) (sc : schedule)
    (url : string) (s : st) :
  Prd.retrieve_github_repo_info fuel sc url None s
  = match parse_github_url url with
    | inl e => (Raised e, s)
    | inr _ => (Ok no_token_document, s)
    end.
Proof.
  unfold Prd.retrieve_github_repo_info.
  destruct (parse_github_url url) as [e|[owner repo]]; reflexivity.
Qed.

(** C8, where the code does not absorb a failure.  In
    [repo2prompt_async.py] the tree step stands outside any [try]: with the
    README served and the root listing refused, the call raises and there
    is no document.  In [repo2prompt_async_prd.py] a fault of the rate
    guard is reported as a README failure and leaves [semaphore] unbound,
    so the tree section is a diagnostic although the tree itself can be
    built. *)
Lemma assembler_failures_not_absorbed :
  fst (@Simple.retrieve_github_repo_info (static site_readme_only) 3 demo_url
         None (@start (static site_readme_only) tt))
  = Raised (mk_exn ClientResponseError "status error")
  /\ fst (@Prd.retrieve_github_repo_info (static site_no_quota) 3
            in_creation_order demo_url (Some "t")
            (@start (static site_no_quota) tt))
     = Ok ("Failed to retrieve README.md: 'rate'" ++ nl ++ nl
           ++ "Failed to build directory tree: " ++ Prd.semaphore_unbound ++ nl)
  /\ fst (@Prd.build_directory_tree (static site_no_quota) "octo" "demo"
            (Some "t") 3 in_creation_order "" 0
            (@start (static site_no_quota) tt))
     = Ok ("notes.txt" ++ nl).
Proof. repeat split; reflexivity. Qed.

(** C2, on Scenario A: [repo2prompt_async.py] fetches [sub/b.md], and the
    document holds the content of [a.py] only; what the walk of [sub]
    collected is dropped by the caller. *)
Lemma subdirectory_contents_dropped :
  let P := static site_a in
  let run := @Simple.retrieve_github_repo_info P 3 demo_url None (@start P tt) in
  fst run
  = Ok ("README.md: Not found or error fetching README" ++ nl ++ nl
        ++ "Directory Structure:" ++ nl
        ++ "a.py" ++ nl ++ "[sub/]" ++ nl ++ "    b.md" ++ nl ++ nl
        ++ nl ++ fence ++ "A" ++ fence ++ nl)
  /\ existsb (fun ev =>
               match ev with
               | EvGet r => String.eqb (req_url r)
                              (contents_url "octo" "demo" "sub/b.md")
               | _ => false
               end) (trace (snd run)) = true.
Proof. split; reflexivity. Qed.

(** C1, on a listing with a directory before a file: the production
    version writes the line of the file before the lines under the
    directory, whichever schedule the sub-walk follows; the sequential
    version writes them in depth-first order. *)
Lemma descendants_after_siblings :
  let P := static site_dir_first in
  let prd sc := fst (@Prd.build_directory_tree P "octo" "demo" None 3 sc "" 0
                       (@start P tt)) in
  prd in_creation_order = Ok ("[sub/]" ++ nl ++ "z.txt" ++ nl ++ "    b.txt" ++ nl)
  /\ prd (Sched [0] []) = Ok ("[sub/]" ++ nl ++ "z.txt" ++ nl ++ "    b.txt" ++ nl)
  /\ fst (@Simple.build_directory_tree P "octo" "demo" None 3 "" 0 (@start P tt))
     = Ok ("[sub/]" ++ nl ++ "    b.txt" ++ nl ++ "z.txt" ++ nl, []).
Proof. repeat split; reflexivity. Qed.

(** ** What a computation adds to the trace *)

Section Emits.
Context `{Platform}.
Variable P : event -> Prop.

Lemma emits_silent {A} (Q : A -> Prop) (m : M A) :
  (forall s, snd (m s) = s) ->
  (forall s a, fst (m s) = Ok a -> Q a) ->
  emits P Q m.
Proof.
  intros Hsame Hval s. split; [|apply Hval].
  exists []. rewrite Hsame, app_nil_r. now split.
Qed.

Lemma emits_ret {A} (Q : A -> Prop) (a : A) : Q a -> emits P Q (ret a).
Proof.
  intros Ha. apply emits_silent; [reflexivity|].
  intros s b Hb. now injection Hb as <-.
Qed.

Lemma emits_raise {A} (Q : A -> Prop) c text : emits P Q (raise c text).
Proof. apply emits_silent; [reflexivity|discriminate]. Qed.

Lemma emits_diverge {A} (Q : A -> Prop) : emits P Q (@diverge _ A).
Proof. apply emits_silent; [reflexivity|discriminate]. Qed.

Lemma emits_lift_exn {A} (Q : A -> Prop) (r : exn + A) :
  (forall a, r = inr a -> Q a) -> emits P Q (lift_exn r).
Proof.
  intros Hr. destruct r as [e|a]; simpl.
  - apply emits_silent; [reflexivity|discriminate].
  - apply emits_ret. now apply Hr.
Qed.

Lemma emits_lift_sum {A} (Q : A -> Prop) c (r : string + A) :
  (forall a, r = inr a -> Q a) -> emits P Q (lift_sum c r).
Proof.
  intros Hr. destruct r as [e|a]; simpl.
  - apply emits_raise.
  - apply emits_ret. now apply Hr.
Qed.

Lemma emits_emit (ev : event) : P ev -> emits P (fun _ => True) (emit ev).
Proof.
  intros Hev s. split; [|trivial].
  exists [ev]. split; [reflexivity|]. now constructor.
Qed.

Lemma emits_http_get (r : request) :
  P (EvGet r) -> emits P (fun _ => True) (http_get r).
Proof.
  intros Hev s. split; [|trivial].
  exists [EvGet r]. split; [|now constructor].
  unfold http_get. destruct (session_get (world s) r) as [[e|resp] w'];
    reflexivity.
Qed.

Lemma emits_bind {A B} (Q : A -> Prop) (R : B -> Prop)
    (m : M A) (k : A -> M B) :
  emits P Q m -> (forall a, Q a -> emits P R (k a)) -> emits P R (bind m k).
Proof.
  intros Hm Hk s. unfold bind.
  destruct (Hm s) as [[evs1 [Htr1 Hall1]] Hval].
  destruct (m s) as [[a| e |] s1]; simpl in *.
  - destruct (Hk a (Hval a eq_refl) s1) as [[evs2 [Htr2 Hall2]] Hval2].
    split; [|exact Hval2].
    exists (evs1 ++ evs2)%list. split.
    + now rewrite Htr2, Htr1, app_assoc.
    + now apply Forall_app.
  - split; [now exists evs1|discriminate].
  - split; [now exists evs1|discriminate].
Qed.

Lemma emits_retry {A} (Q : A -> Prop) (target : M A) (k : nat) :
  P EvBackoff -> emits P Q target -> emits P Q (Prd.retry k target).
Proof.
  intros Hwait Htarget. induction k as [|k IH]; intros s; simpl;
    destruct (Htarget s) as [[evs1 [Htr1 Hall1]] Hval];
    destruct (target s) as [[a| e |] s1] eqn:Hrun; simpl in *;
    try (split; [now exists evs1|(exact Hval || discriminate)]).
  - destruct (is_transport_fault e);
      (split; [now exists evs1|discriminate]).
  - destruct (is_transport_fault e);
      [|split; [now exists evs1|discriminate]].
    pose proof (emits_bind (fun _ => True) Q (emit EvBackoff)
                  (fun _ => Prd.retry k target)
                  (emits_emit _ Hwait) (fun _ _ => IH) s1)
      as [[evs2 [Htr2 Hall2]] Hval2].
    split; [|exact Hval2].
    exists (evs1 ++ evs2)%list. split.
    + now rewrite Htr2, Htr1, app_assoc.
    + now apply Forall_app.
Qed.
End Emits.

Lemma emits_weaken_event `{Platform} {A} (P P' : event -> Prop) (Q : A -> Prop)
    (m : M A) :
  (forall ev, P ev -> P' ev) -> emits P Q m -> emits P' Q m.
Proof.
  intros HP Hm s. destruct (Hm s) as [[evs [Htr Hall]] Hval].
  split; [|exact Hval]. exists evs. split; [exact Htr|].
  eapply Forall_impl; [exact HP|exact Hall].
Qed.

(** ** The excluded marker *)

Lemma app_inj_left (a p q : string) : a ++ p = a ++ q -> p = q.
Proof.
  induction a as [|c a IH]; simpl; [trivial|].
  intros Heq. injection Heq as Heq. now apply IH.
Qed.

Lemma contents_request_inj (owner repo p q : string) (token : option string) :
  contents_request owner repo p token = contents_request owner repo q token ->
  p = q.
Proof.
  unfold contents_request, contents_url. intros Heq. injection Heq as Heq.
  repeat match type of Heq with
         | String _ _ = String _ _ => injection Heq as Heq
         | append _ _ = append _ _ => apply app_inj_left in Heq
         end.
  exact Heq.
Qed.

(** The path of an entry that the marker test lets through. *)
Lemma path_not_excluded `{Platform} (path : json) (segments : list string) :
  py_split path = inr segments -> py_in marker segments = false ->
  excluded (py_format path) = false.
Proof.
  destruct path; try discriminate. simpl. intros Heq. injection Heq as <-.
  trivial.
Qed.

Lemma bind_ext `{Platform} {A B} (m : M A) (k1 k2 : A -> M B) s :
  (forall a s', k1 a s' = k2 a s') -> bind m k1 s = bind m k2 s.
Proof. intros Hk. unfold bind. destruct (m s) as [[a| e |] s']; auto. Qed.

(** A skipped entry leaves the loop where it was. *)
Lemma simple_visit_skipped `{Platform} recur indent item next tree_str tasks s :
  skipped item = true ->
  Simple.visit recur indent item next tree_str tasks s = next tree_str tasks s.
Proof.
  unfold skipped, Simple.visit.
  destruct (getitem item "path") as [e|[| | |p| |]]; try discriminate.
  unfold excluded. cbn. unfold bind, ret. now intros ->.
Qed.

Lemma prd_visit_skipped `{Platform} fetch indent item next tree_str tasks s :
  skipped item = true ->
  Prd.visit fetch indent item next tree_str tasks s = next tree_str tasks s.
Proof.
  unfold skipped, Prd.visit.
  destruct (getitem item "path") as [e|[| | |p| |]]; try discriminate.
  unfold excluded. cbn. unfold bind, ret. now intros ->.
Qed.

(** The body of the loop depends on the rest of the loop by its runs only. *)
Lemma simple_visit_ext `{Platform} recur indent item next1 next2 :
  (forall t tasks s, next1 t tasks s = next2 t tasks s) ->
  forall tree_str tasks s,
    Simple.visit recur indent item next1 tree_str tasks s
    = Simple.visit recur indent item next2 tree_str tasks s.
Proof.
  intros Hnext tree_str tasks s. unfold Simple.visit.
  apply bind_ext. intros path s1. apply bind_ext. intros segments s2.
  destruct (py_in marker segments); [apply Hnext|].
  apply bind_ext. intros type s3. destruct (py_eq_str type "dir").
  - apply bind_ext. intros name s4. apply bind_ext. intros [sub ?] s5.
    apply Hnext.
  - apply bind_ext. intros name s4. apply bind_ext. intros allowed s5.
    destruct allowed; apply Hnext.
Qed.

Lemma prd_visit_ext `{Platform} fetch indent item next1 next2 :
  (forall t tasks s, next1 t tasks s = next2 t tasks s) ->
  forall tree_str tasks s,
    Prd.visit fetch indent item next1 tree_str tasks s
    = Prd.visit fetch indent item next2 tree_str tasks s.
Proof.
  intros Hnext tree_str tasks s. unfold Prd.visit.
  apply bind_ext. intros path s1. apply bind_ext. intros segments s2.
  destruct (py_in marker segments); [apply Hnext|].
  apply bind_ext. intros type s3. destruct (py_eq_str type "dir").
  - apply bind_ext. intros name s4. apply Hnext.
  - apply bind_ext. intros name s4. apply bind_ext. intros allowed s5.
    destruct allowed; [|apply Hnext].
    apply bind_ext. intros file_info s6. apply bind_ext. intros content s7.
    apply bind_ext. intros block s8. apply Hnext.
Qed.

(** The loops run as if the listing held no skipped entry. *)
Lemma simple_walk_items_filter `{Platform} recur indent items :
  forall tree_str tasks s,
    Simple.walk_items recur indent items tree_str tasks s
    = Simple.walk_items recur indent (filter kept items) tree_str tasks s.
Proof.
  induction items as [|item rest IH]; intros tree_str tasks s; [reflexivity|].
  cbn [filter Simple.walk_items]. unfold kept at 1.
  destruct (skipped item) eqn:Hskip; cbn [negb Simple.walk_items].
  - rewrite simple_visit_skipped by exact Hskip. apply IH.
  - now apply simple_visit_ext.
Qed.

Lemma prd_walk_items_filter `{Platform} fetch indent items :
  forall tree_str tasks s,
    Prd.walk_items fetch indent items tree_str tasks s
    = Prd.walk_items fetch indent (filter kept items) tree_str tasks s.
Proof.
  induction items as [|item rest IH]; intros tree_str tasks s; [reflexivity|].
  cbn [filter Prd.walk_items]. unfold kept at 1.
  destruct (skipped item) eqn:Hskip; cbn [negb Prd.walk_items].
  - rewrite prd_visit_skipped by exact Hskip. apply IH.
  - now apply prd_visit_ext.
Qed.

Section WalkTrace.
Context `{Platform}.
Variables (owner repo : string) (token : option string).

Local Abbreviation permitted_from := (permitted owner repo token).
Local Abbreviation clean := (fun p : string => excluded p = false).
Local Abbreviation anything := (fun _ => True).

Lemma permitted_get (root p : string) :
  p = root \/ excluded p = false ->
  permitted_from root (EvGet (contents_request owner repo p token)).
Proof. intros Hp. now exists p. Qed.

Lemma permitted_below (root p : string) (ev : event) :
  excluded p = false -> permitted_from p ev -> permitted_from root ev.
Proof.
  intros Hp. destruct ev; simpl; trivial.
  intros [q [-> [Hq | Hq]]]; exists q; (split; [reflexivity|right]);
    [now rewrite Hq|exact Hq].
Qed.

Lemma raise_for_status_emits (P : event -> Prop) req resp :
  emits P (fun _ : json => True) (raise_for_status req resp).
Proof.
  unfold raise_for_status. destruct (400 <=? status resp)%Z.
  - apply emits_raise.
  - now apply emits_ret.
Qed.

Lemma simple_fetch_emits (root p : string) :
  p = root \/ excluded p = false ->
  emits (permitted_from root) anything
    (Simple.fetch_repo_content owner repo token p).
Proof.
  intros Hp. unfold Simple.fetch_repo_content.
  apply (emits_bind _ anything); [now apply emits_http_get, permitted_get|].
  intros resp _. destruct (status resp =? 200)%Z.
  - now apply emits_lift_exn.
  - now apply raise_for_status_emits.
Qed.

Lemma prd_fetch_emits (root p : string) (fuel : nat) :
  p = root \/ excluded p = false ->
  emits (permitted_from root) anything
    (Prd.fetch_repo_content owner repo token fuel p).
Proof.
  intros Hp. induction fuel as [|fuel IH]; [apply emits_raise|].
  rewrite fetch_unfold. unfold Prd.on_exception.
  apply emits_retry; [exact I|]. unfold Prd.fetch_once.
  apply (emits_bind _ anything); [now apply emits_http_get, permitted_get|].
  intros resp _. destruct (status resp =? 200)%Z; [now apply emits_lift_exn|].
  destruct ((status resp =? 403)%Z || (status resp =? 429)%Z).
  - destruct (truthy (retry_after resp)); [|apply emits_raise].
    apply (emits_bind _ anything); [now apply emits_lift_sum|].
    intros seconds _.
    apply (emits_bind _ anything); [now apply emits_emit|].
    intros _ _. exact IH.
  - destruct (status resp =? 404)%Z; [apply emits_raise|].
    now apply raise_for_status_emits.
Qed.

(** One turn of the sequential loop. *)
Lemma simple_visit_emits root recur indent item next :
  (forall p i, excluded p = false ->
               emits (permitted_from root) anything (recur p i)) ->
  (forall t tasks, Forall clean tasks ->
      emits (permitted_from root) (fun r => Forall clean (snd r))
        (next t tasks)) ->
  forall tree_str tasks, Forall clean tasks ->
    emits (permitted_from root) (fun r => Forall clean (snd r))
      (Simple.visit recur indent item next tree_str tasks).
Proof.
  intros Hrecur Hnext tree_str tasks Htasks. unfold Simple.visit.
  apply (emits_bind _ (fun path => getitem item "path" = inr path));
    [now apply emits_lift_exn|].
  intros path Hpath.
  apply (emits_bind _ (fun segments => py_split path = inr segments));
    [now apply emits_lift_exn|].
  intros segments Hsplit.
  destruct (py_in marker segments) eqn:Hin; [now apply Hnext|].
  pose proof (path_not_excluded _ _ Hsplit Hin) as Hclean.
  apply (emits_bind _ anything); [now apply emits_lift_exn|].
  intros type _. destruct (py_eq_str type "dir").
  - apply (emits_bind _ anything); [now apply emits_lift_exn|].
    intros name _.
    apply (emits_bind _ anything); [now apply Hrecur|].
    intros [sub ?] _. now apply Hnext.
  - apply (emits_bind _ anything); [now apply emits_lift_exn|].
    intros name _.
    apply (emits_bind _ anything); [now apply emits_lift_exn|].
    intros allowed _. destruct allowed; apply Hnext; [|exact Htasks].
    apply Forall_app. split; [exact Htasks|]. now constructor.
Qed.

Lemma simple_walk_items_emits root recur indent items :
  (forall p i, excluded p = false ->
               emits (permitted_from root) anything (recur p i)) ->
  forall tree_str tasks, Forall clean tasks ->
    emits (permitted_from root) (fun r => Forall clean (snd r))
      (Simple.walk_items recur indent items tree_str tasks).
Proof.
  intros Hrecur. induction items as [|item rest IH];
    intros tree_str tasks Htasks; cbn [Simple.walk_items].
  - now apply emits_ret.
  - now apply simple_visit_emits.
Qed.

Lemma simple_start_all_trace root paths :
  Forall clean paths ->
  forall s,
  exists evs,
    trace (snd (Simple.start_all owner repo token paths s))
    = (trace s ++ evs)%list
    /\ Forall (permitted_from root) evs.
Proof.
  induction 1 as [|p rest Hp _ IH]; intros s; cbn [Simple.start_all].
  - exists []. now rewrite app_nil_r.
  - destruct (simple_fetch_emits root p (or_intror Hp) s)
      as [[evs1 [Htr1 Hall1]] _].
    destruct (Simple.fetch_repo_content owner repo token p s) as [r s1].
    simpl in Htr1. destruct (IH s1) as [evs2 [Htr2 Hall2]].
    destruct (Simple.start_all owner repo token rest s1) as [rs s2].
    simpl in Htr2. exists (evs1 ++ evs2)%list. split.
    + simpl. now rewrite Htr2, Htr1, app_assoc.
    + now apply Forall_app.
Qed.

Lemma simple_gather_emits root paths :
  Forall clean paths ->
  emits (permitted_from root) anything
    (Simple.gather owner repo token paths).
Proof.
  intros Hpaths s. split; [|trivial]. unfold Simple.gather.
  destruct (simple_start_all_trace root paths Hpaths s) as [evs [Htr Hall]].
  destruct (Simple.start_all owner repo token paths s) as [rs s'].
  simpl in Htr. exists evs. split; [|exact Hall].
  now destruct (Simple.faults rs).
Qed.

Lemma simple_walk_emits fuel :
  forall root indent,
    emits (permitted_from root) anything
      (Simple.build_directory_tree owner repo token fuel root indent).
Proof.
  induction fuel as [|fuel IH]; intros root indent;
    cbn [Simple.build_directory_tree]; [apply emits_raise|].
  apply (emits_bind _ anything); [apply simple_fetch_emits; now left|].
  intros listing _.
  apply (emits_bind _ anything); [now apply emits_lift_exn|].
  intros items _.
  apply (emits_bind _ (fun r => Forall clean (snd r))).
  - apply simple_walk_items_emits; [|constructor].
    intros p i Hp. eapply emits_weaken_event; [|apply IH].
    intros ev. now apply permitted_below.
  - intros [tree_str tasks] Htasks. simpl in Htasks.
    apply (emits_bind _ anything); [now apply simple_gather_emits|].
    intros contents _.
    apply (emits_bind _ anything); [now apply emits_lift_exn|].
    intros decoded _. now apply emits_ret.
Qed.

(** One turn of the loop of the production version. *)
Lemma prd_visit_emits root fetch indent item next :
  (forall p, excluded p = false ->
             emits (permitted_from root) anything (fetch p)) ->
  (forall t tasks, Forall clean tasks ->
      emits (permitted_from root) (fun r => Forall clean (snd r))
        (next t tasks)) ->
  forall tree_str tasks, Forall clean tasks ->
    emits (permitted_from root) (fun r => Forall clean (snd r))
      (Prd.visit fetch indent item next tree_str tasks).
Proof.
  intros Hfetch Hnext tree_str tasks Htasks. unfold Prd.visit.
  apply (emits_bind _ (fun path => getitem item "path" = inr path));
    [now apply emits_lift_exn|].
  intros path Hpath.
  apply (emits_bind _ (fun segments => py_split path = inr segments));
    [now apply emits_lift_exn|].
  intros segments Hsplit.
  destruct (py_in marker segments) eqn:Hin; [now apply Hnext|].
  pose proof (path_not_excluded _ _ Hsplit Hin) as Hclean.
  apply (emits_bind _ anything); [now apply emits_lift_exn|].
  intros type _. destruct (py_eq_str type "dir").
  - apply (emits_bind _ anything); [now apply emits_lift_exn|].
    intros name _. apply Hnext.
    apply Forall_app. split; [exact Htasks|]. now constructor.
  - apply (emits_bind _ anything); [now apply emits_lift_exn|].
    intros name _.
    apply (emits_bind _ anything); [now apply emits_lift_exn|].
    intros allowed _. destruct allowed; [|now apply Hnext].
    apply (emits_bind _ anything); [now apply Hfetch|].
    intros file_info _.
    apply (emits_bind _ anything); [now apply emits_lift_exn|].
    intros content _.
    apply (emits_bind _ anything); [now apply emits_lift_exn|].
    intros block _. now apply Hnext.
Qed.

Lemma prd_walk_items_emits root fetch indent items :
  (forall p, excluded p = false ->
             emits (permitted_from root) anything (fetch p)) ->
  forall tree_str tasks, Forall clean tasks ->
    emits (permitted_from root) (fun r => Forall clean (snd r))
      (Prd.walk_items fetch indent items tree_str tasks).
Proof.
  intros Hfetch. induction items as [|item rest IH];
    intros tree_str tasks Htasks; cbn [Prd.walk_items].
  - now apply emits_ret.
  - now apply prd_visit_emits.
Qed.

(** The sub-walks that complete early add permitted events only. *)
Lemma run_early_trace root walk sc tasks order :
  (forall sc' p, In p tasks ->
                 emits (permitted_from root) anything (walk sc' p)) ->
  forall done s,
  exists evs,
    trace (snd (Prd.run_early walk sc tasks order done s))
    = (trace s ++ evs)%list
    /\ Forall (permitted_from root) evs.
Proof.
  intros Hwalk. induction order as [|i later IH]; intros done s;
    cbn [Prd.run_early].
  - exists []. now rewrite app_nil_r.
  - destruct (nth_error tasks i) as [path|] eqn:Hnth; [|apply IH].
    destruct (Prd.completed i done); [apply IH|].
    destruct (Hwalk (child sc i) path (nth_error_In _ _ Hnth) s)
      as [[evs1 [Htr1 Hall1]] _].
    destruct (walk (child sc i) path s) as [r s1]. simpl in Htr1.
    destruct (IH (done ++ [(i, r)])%list s1) as [evs2 [Htr2 Hall2]].
    exists (evs1 ++ evs2)%list. split.
    + now rewrite Htr2, Htr1, app_assoc.
    + now apply Forall_app.
Qed.

Lemma join_emits root walk sc done tasks :
  (forall sc' p, In p tasks ->
                 emits (permitted_from root) anything (walk sc' p)) ->
  forall i tree_str,
    emits (permitted_from root) anything
      (Prd.join walk sc done i tasks tree_str).
Proof.
  induction tasks as [|path rest IH]; intros Hwalk i tree_str;
    cbn [Prd.join].
  - now apply emits_ret.
  - apply (emits_bind _ anything).
    + unfold Prd.await. destruct (Prd.completed i done) as [r|].
      * now apply emits_silent.
      * apply Hwalk. now left.
    + intros sub _. apply IH. intros sc' p Hp. apply Hwalk. now right.
Qed.

Lemma prd_walk_emits fuel :
  forall sc root indent,
    emits (permitted_from root) anything
      (Prd.build_directory_tree owner repo token fuel sc root indent).
Proof.
  induction fuel as [|fuel IH]; intros sc root indent;
    cbn [Prd.build_directory_tree]; [apply emits_diverge|].
  apply (emits_bind _ anything); [apply prd_fetch_emits; now left|].
  intros listing _.
  apply (emits_bind _ anything); [now apply emits_lift_exn|].
  intros items _.
  apply (emits_bind _ (fun r => Forall clean (snd r))).
  - apply prd_walk_items_emits; [|constructor].
    intros p Hp. apply prd_fetch_emits. now right.
  - intros [tree_str tasks] Htasks. simpl in Htasks.
    assert (Hsub : forall sc' p, In p tasks ->
              emits (permitted_from root) anything
                (Prd.build_directory_tree owner repo token fuel sc' p
                   (S indent))).
    { intros sc' p Hp. eapply emits_weaken_event; [|apply IH].
      intros ev. apply permitted_below.
      exact (proj1 (Forall_forall _ _) Htasks p Hp). }
    intros s.
    destruct (run_early_trace root _ sc tasks (early sc) Hsub [] s)
      as [evs1 [Htr1 Hall1]].
    destruct (Prd.run_early _ sc tasks (early sc) [] s) as [done s1].
    simpl in Htr1.
    destruct (join_emits root _ sc done tasks Hsub 0 tree_str s1)
      as [[evs2 [Htr2 Hall2]] _].
    split; [|trivial].
    exists (evs1 ++ evs2)%list. split.
    + now rewrite Htr2, Htr1, app_assoc.
    + now apply Forall_app.
Qed.

Lemma permitted_never root evs :
  Forall (permitted_from root) evs ->
  forall p, excluded p = true -> p <> root ->
    ~ In (EvGet (contents_request owner repo p token)) evs.
Proof.
  intros Hall p Hp Hroot Hin.
  destruct (proj1 (Forall_forall _ _) Hall _ Hin) as [q [Heq Hq]].
  apply contents_request_inj in Heq. subst q.
  destruct Hq as [Hq|Hq]; [contradiction|congruence].
Qed.

(** C6: an entry whose path has the marker among its segments is passed
    over.  In both versions the loop over a listing runs exactly as over
    the listing without such entries: no tree line, no sub-walk, no
    fetch.  And whatever the service lists, a walk from [root] asks for
    [root] and for paths without the marker only, so no path under an
    excluded entry is ever requested. *)
Theorem marker_entries_untouched :
  (forall recur indent items tree_str tasks s,
      Simple.walk_items recur indent items tree_str tasks s
      = Simple.walk_items recur indent (filter kept items) tree_str tasks s)
  /\ (forall fetch indent items tree_str tasks s,
      Prd.walk_items fetch indent items tree_str tasks s
      = Prd.walk_items fetch indent (filter kept items) tree_str tasks s)
  /\ (forall fuel root indent s,
      exists evs,
        trace (snd (Simple.build_directory_tree owner repo token fuel root
                      indent s))
        = (trace s ++ evs)%list
        /\ Forall (permitted owner repo token root) evs
        /\ forall p, excluded p = true -> p <> root ->
             ~ In (EvGet (contents_request owner repo p token)) evs)
  /\ (forall fuel sc root indent s,
      exists evs,
        trace (snd (Prd.build_directory_tree owner repo token fuel sc root
                      indent s))
        = (trace s ++ evs)%list
        /\ Forall (permitted owner repo token root) evs
        /\ forall p, excluded p = true -> p <> root ->
             ~ In (EvGet (contents_request owner repo p token)) evs).
Proof.
  split; [|split; [|split]].
  - intros. apply simple_walk_items_filter.
  - intros. apply prd_walk_items_filter.
  - intros fuel root indent s.
    destruct (simple_walk_emits fuel root indent s) as [[evs [Htr Hall]] _].
    exists evs. split; [exact Htr|]. split; [exact Hall|].
    now apply permitted_never.
  - intros fuel sc root indent s.
    destruct (prd_walk_emits fuel sc root indent s) as [[evs [Htr Hall]] _].
    exists evs. split; [exact Htr|]. split; [exact Hall|].
    now apply permitted_never.
Qed.
End WalkTrace.

(** ** Determinism under a fixed set of responses *)

Section Determinism.
Context `{Platform}.

(** The answer to a request does not depend on what was asked before. *)
Hypothesis fixed_responses :
  forall (w1 w2 : World) (r : request),
    fst (session_get w1 r) = fst (session_get w2 r).

Lemma bind_agree {A B} (m1 m2 : M A) (k1 k2 : A -> M B) s1 s2 :
  fst (m1 s1) = fst (m2 s2) ->
  (forall a t1 t2, fst (k1 a t1) = fst (k2 a t2)) ->
  fst (bind m1 k1 s1) = fst (bind m2 k2 s2).
Proof.
  unfold bind. destruct (m1 s1) as [r1 t1], (m2 s2) as [r2 t2]. simpl.
  intros <- Hk. destruct r1; simpl; auto.
Qed.

Lemma steady_bind {A B} (m : M A) (k : A -> M B) :
  steady m -> (forall a, steady (k a)) -> steady (bind m k).
Proof. intros Hm Hk s1 s2. apply bind_agree; [apply Hm|]. intros a. apply Hk. Qed.

Lemma steady_const {A} (r : result A) : steady (fun s => (r, s)).
Proof. intros s1 s2. reflexivity. Qed.

Lemma steady_lift_exn {A} (r : exn + A) : steady (lift_exn r).
Proof. destruct r; apply steady_const. Qed.

Lemma steady_lift_sum {A} c (r : string + A) : steady (lift_sum c r).
Proof. destruct r; apply steady_const. Qed.

Lemma steady_emit ev : steady (emit ev).
Proof. intros s1 s2. reflexivity. Qed.

Lemma steady_http_get r : steady (http_get r).
Proof.
  intros s1 s2. unfold http_get.
  pose proof (fixed_responses (world s1) (world s2) r) as Hsame.
  destruct (session_get (world s1) r) as [a1 w1],
           (session_get (world s2) r) as [a2 w2].
  simpl in Hsame. subst a2. now destruct a1.
Qed.

Lemma steady_try_except {A} (m : M A) (handler : exn -> M A) :
  steady m -> (forall e, steady (handler e)) -> steady (try_except m handler).
Proof.
  intros Hm Hh s1 s2. unfold try_except. specialize (Hm s1 s2).
  destruct (m s1) as [r1 t1], (m s2) as [r2 t2]. simpl in Hm. subst r2.
  destruct r1; simpl; auto. apply Hh.
Qed.

Lemma steady_retry {A} (target : M A) (k : nat) :
  steady target -> steady (Prd.retry k target).
Proof.
  intros Htarget. induction k as [|k IH]; intros s1 s2; simpl;
    specialize (Htarget s1 s2);
    destruct (target s1) as [r1 t1], (target s2) as [r2 t2];
    simpl in Htarget; subst r2; destruct r1 as [a| e |]; simpl; auto;
    destruct (is_transport_fault e); simpl; auto.
  apply (steady_bind (emit EvBackoff) (fun _ => Prd.retry k target));
    [apply steady_emit|intros _; exact IH].
Qed.

Lemma steady_raise_for_status req resp : steady (raise_for_status req resp).
Proof.
  unfold raise_for_status. destruct (400 <=? status resp)%Z;
    apply steady_const.
Qed.

Variables (owner repo : string) (token : option string).

Lemma steady_fetch fuel path :
  steady (Prd.fetch_repo_content owner repo token fuel path).
Proof.
  induction fuel as [|fuel IH]; [apply steady_const|].
  rewrite fetch_unfold. unfold Prd.on_exception. apply steady_retry.
  unfold Prd.fetch_once. apply steady_bind; [apply steady_http_get|].
  intros resp. destruct (status resp =? 200)%Z; [apply steady_lift_exn|].
  destruct ((status resp =? 403)%Z || (status resp =? 429)%Z).
  - destruct (truthy (retry_after resp)); [|apply steady_const].
    apply steady_bind; [apply steady_lift_sum|]. intros seconds.
    apply steady_bind; [apply steady_emit|]. intros _. exact IH.
  - destruct (status resp =? 404)%Z; [apply steady_const|].
    apply steady_raise_for_status.
Qed.

Lemma steady_visit fetch indent item next tree_str tasks :
  (forall p, steady (fetch p)) -> (forall t ts, steady (next t ts)) ->
  steady (Prd.visit fetch indent item next tree_str tasks).
Proof.
  intros Hfetch Hnext. unfold Prd.visit.
  apply steady_bind; [apply steady_lift_exn|]. intros path.
  apply steady_bind; [apply steady_lift_exn|]. intros segments.
  destruct (py_in marker segments); [apply Hnext|].
  apply steady_bind; [apply steady_lift_exn|]. intros type.
  destruct (py_eq_str type "dir").
  - apply steady_bind; [apply steady_lift_exn|]. intros name. apply Hnext.
  - apply steady_bind; [apply steady_lift_exn|]. intros name.
    apply steady_bind; [apply steady_lift_exn|]. intros allowed.
    destruct allowed; [|apply Hnext].
    apply steady_bind; [apply Hfetch|]. intros file_info.
    apply steady_bind; [apply steady_lift_exn|]. intros content.
    apply steady_bind; [apply steady_lift_exn|]. intros block. apply Hnext.
Qed.

Lemma steady_walk_items fetch indent items :
  (forall p, steady (fetch p)) ->
  forall tree_str tasks,
    steady (Prd.walk_items fetch indent items tree_str tasks).
Proof.
  intros Hfetch. induction items as [|item rest IH]; intros tree_str tasks;
    cbn [Prd.walk_items]; [apply steady_const|].
  now apply steady_visit.
Qed.

(** *** Sub-walks that complete in any order *)

Section Tasks.
Variable walk : schedule -> string -> M string.
Variable tasks : list string.

(** The result of a sub-walk depends on its path alone. *)
Hypothesis walk_fixed :
  forall sc1 sc2 p s1 s2, fst (walk sc1 p s1) = fst (walk sc2 p s2).

Lemma completed_app i (done : Prd.table) j r :
  Prd.completed i (done ++ [(j, r)])%list =
  match Prd.completed i done with
  | Some r' => Some r'
  | None => if (i =? j)%nat then Some r else None
  end.
Proof.
  induction done as [|[k r'] done IH]; simpl; [reflexivity|].
  destruct (i =? k)%nat; [reflexivity|exact IH].
Qed.

Lemma run_early_sound sc order :
  forall done s, sound walk tasks done ->
    sound walk tasks (fst (Prd.run_early walk sc tasks order done s)).
Proof.
  induction order as [|i later IH]; intros done s Hdone;
    cbn [Prd.run_early]; [exact Hdone|].
  destruct (nth_error tasks i) as [path|] eqn:Hnth; [|now apply IH].
  destruct (Prd.completed i done) eqn:Hi; [now apply IH|].
  destruct (walk (child sc i) path s) as [r s1] eqn:Hrun.
  apply IH. intros j r' path' Hj Hnth' sc' s'.
  rewrite completed_app in Hj.
  destruct (Prd.completed j done) as [r''|] eqn:Hjd.
  - injection Hj as <-. now apply (Hdone j r'' path').
  - destruct (Nat.eqb_spec j i) as [->|]; [|discriminate].
    injection Hj as <-. rewrite Hnth in Hnth'. injection Hnth' as <-.
    change r with (fst (r, s1)). rewrite <- Hrun. apply walk_fixed.
Qed.

Lemma await_agree sc1 sc2 done1 done2 i path s1 s2 :
  sound walk tasks done1 -> sound walk tasks done2 ->
  nth_error tasks i = Some path ->
  fst (Prd.await walk sc1 done1 i path s1)
  = fst (Prd.await walk sc2 done2 i path s2).
Proof.
  intros H1 H2 Hnth. unfold Prd.await.
  destruct (Prd.completed i done1) as [r1|] eqn:Hc1,
           (Prd.completed i done2) as [r2|] eqn:Hc2; simpl.
  - rewrite (H1 i r1 path Hc1 Hnth sc1 s1).
    now rewrite (H2 i r2 path Hc2 Hnth sc1 s1).
  - now rewrite (H1 i r1 path Hc1 Hnth (child sc2 i) s2).
  - now rewrite (H2 i r2 path Hc2 Hnth (child sc1 i) s1).
  - apply walk_fixed.
Qed.

Lemma join_agree sc1 sc2 done1 done2 :
  sound walk tasks done1 -> sound walk tasks done2 ->
  forall rest i,
    (forall k path, nth_error rest k = Some path ->
                    nth_error tasks (i + k) = Some path) ->
    forall tree_str s1 s2,
      fst (Prd.join walk sc1 done1 i rest tree_str s1)
      = fst (Prd.join walk sc2 done2 i rest tree_str s2).
Proof.
  intros H1 H2. induction rest as [|path rest IH];
    intros i Hrest tree_str s1 s2; cbn [Prd.join]; [reflexivity|].
  apply bind_agree.
  - apply await_agree; trivial.
    rewrite <- (Nat.add_0_r i). now apply (Hrest 0).
  - intros sub t1 t2. apply IH. intros k p Hk.
    rewrite Nat.add_succ_comm. now apply (Hrest (S k)).
Qed.
End Tasks.

Lemma walk_agree fuel :
  forall sc1 sc2 path indent s1 s2,
    fst (Prd.build_directory_tree owner repo token fuel sc1 path indent s1)
    = fst (Prd.build_directory_tree owner repo token fuel sc2 path indent s2).
Proof.
  induction fuel as [|fuel IH]; intros sc1 sc2 path indent s1 s2;
    cbn [Prd.build_directory_tree]; [reflexivity|].
  apply bind_agree; [apply steady_fetch|]. intros listing t1 t2.
  apply bind_agree; [apply steady_lift_exn|]. intros items u1 u2.
  apply bind_agree;
    [apply steady_walk_items; intros p; apply steady_fetch|].
  intros [tree_str tasks] v1 v2.
  set (walk := fun sc' p =>
         Prd.build_directory_tree owner repo token fuel sc' p (S indent)).
  assert (Hwalk : forall sc sc' p s s',
             fst (walk sc p s) = fst (walk sc' p s')).
  { intros. apply IH. }
  pose proof (run_early_sound walk tasks Hwalk sc1 (early sc1) [] v1) as H1.
  pose proof (run_early_sound walk tasks Hwalk sc2 (early sc2) [] v2) as H2.
  destruct (Prd.run_early walk sc1 tasks (early sc1) [] v1) as [done1 x1].
  destruct (Prd.run_early walk sc2 tasks (early sc2) [] v2) as [done2 x2].
  simpl in H1, H2.
  apply (join_agree walk tasks Hwalk).
  - apply H1. intros i r p Hc. discriminate.
  - apply H2. intros i r p Hc. discriminate.
  - intros k p Hk. exact Hk.
Qed.
End Determinism.

Section Document.
Context `{Platform}.

Hypothesis fixed_responses :
  forall (w1 w2 : World) (r : request),
    fst (session_get w1 r) = fst (session_get w2 r).

Lemma steady_fetch_rate_limit_status t :
  steady (Prd.fetch_rate_limit_status t).
Proof.
  unfold Prd.fetch_rate_limit_status, Prd.on_exception.
  apply steady_retry.
  apply steady_bind; [now apply steady_http_get|]. intros resp.
  apply steady_bind; [apply steady_lift_exn|]. intros data.
  apply steady_lift_exn.
Qed.

(** The clock decides whether the rate guard sleeps, never what it
    returns. *)
Lemma steady_quota_sleep (reset_time : json) :
  steady (t_now <- now ;;
          later <- lift_exn (py_gt_time reset_time t_now) ;;
          if later then
            match py_number reset_time with
            | inr epoch => emit (EvSleepUntil epoch)
            | inl _ => ret tt
            end
          else ret tt).
Proof.
  intros s1 s2. unfold bind, now, py_gt_time. simpl.
  destruct (py_number reset_time) as [ty|n]; simpl; [reflexivity|].
  destruct (time_time (world s1) <? n)%Z, (time_time (world s2) <? n)%Z;
    reflexivity.
Qed.

Lemma steady_rate_guard token : steady (Prd.rate_guard token).
Proof.
  unfold Prd.rate_guard. destruct token as [t|]; [|apply steady_const].
  apply steady_bind; [apply steady_fetch_rate_limit_status|]. intros rate.
  apply steady_bind; [apply steady_lift_exn|]. intros _.
  apply steady_bind; [apply steady_lift_exn|]. intros _.
  apply steady_bind; [apply steady_lift_exn|]. intros remaining.
  apply steady_bind; [apply steady_lift_exn|]. intros low.
  destruct low; [|apply steady_const].
  apply steady_bind; [apply steady_lift_exn|]. intros reset_time.
  apply steady_quota_sleep.
Qed.

Lemma steady_first_block owner repo token fuel :
  steady (Prd.first_block owner repo token fuel).
Proof.
  unfold Prd.first_block.
  apply steady_try_except; [|intros e; apply steady_const].
  apply steady_bind; [apply steady_rate_guard|]. intros _.
  apply steady_try_except; [|intros e; apply steady_const].
  apply steady_bind.
  - destruct token; [now apply steady_fetch|apply steady_const].
  - intros info. apply steady_bind; [apply steady_lift_exn|].
    intros content. apply steady_const.
Qed.

Lemma second_block_agree owner repo token fuel sc1 sc2 bound text s1 s2 :
  fst (Prd.second_block owner repo token fuel sc1 bound text s1)
  = fst (Prd.second_block owner repo token fuel sc2 bound text s2).
Proof.
  unfold Prd.second_block, try_except.
  destruct token as [t|]; [|reflexivity].
  destruct bound; [|reflexivity].
  pose proof (walk_agree fixed_responses owner repo (Some t) fuel
                sc1 sc2 "" 0 s1 s2) as Hwalk.
  unfold bind.
  destruct (Prd.build_directory_tree owner repo (Some t) fuel sc1 "" 0 s1)
    as [r1 t1],
    (Prd.build_directory_tree owner repo (Some t) fuel sc2 "" 0 s2)
    as [r2 t2].
  simpl in Hwalk. subst r2. now destruct r1.
Qed.

(** C9: with a fixed set of responses, what [build_directory_tree]
    returns (the tree text, or the exception it raises) is the same for
    any two orders in which the sub-walks complete, at every level and
    from any two states; and so is the document of
    [retrieve_github_repo_info], whatever the clock reads. *)
Theorem output_independent_of_completion_order
    (owner repo : string) (token : option string) (fuel : nat) :
  (forall sc1 sc2 path indent s1 s2,
      fst (Prd.build_directory_tree owner repo token fuel sc1 path indent s1)
      = fst (Prd.build_directory_tree owner repo token fuel sc2 path indent s2))
  /\ (forall sc1 sc2 url s1 s2,
      fst (Prd.retrieve_github_repo_info fuel sc1 url token s1)
      = fst (Prd.retrieve_github_repo_info fuel sc2 url token s2)).
Proof.
  split; [apply (walk_agree fixed_responses)|].
  intros sc1 sc2 url s1 s2. unfold Prd.retrieve_github_repo_info.
  apply bind_agree; [apply steady_lift_exn|]. intros [o r] t1 t2.
  unfold Prd.assemble.
  apply bind_agree; [apply steady_first_block|]. intros [bound text] u1 u2.
  apply second_block_agree.
Qed.
End Document.

(** C9, on a repository with two subdirectories: the two schedules give
    the same tree. *)
Lemma output_independent_witness :
  let P := static site_two_dirs in
  fst (@Prd.build_directory_tree P "octo" "demo" None 3 y_first "" 0
         (@start P tt))
  = fst (@Prd.build_directory_tree P "octo" "demo" None 3 in_creation_order
           "" 0 (@start P tt)).
Proof.
  intros P.
  apply (@output_independent_of_completion_order P).
  intros w1 w2 r. reflexivity.
Defined.

(** The two schedules do ask in different orders, and the tree is the one
    of the listing with the excluded entry left out. *)
Example schedules_differ_in_trace_only :
  let P := static site_two_dirs in
  let run sc := @Prd.build_directory_tree P "octo" "demo" None 3 sc "" 0
                  (@start P tt) in
  let asked sc := map (fun ev => match ev with
                                 | EvGet r => req_url r
                                 | _ => ""
                                 end) (trace (snd (run sc))) in
  asked in_creation_order
  = [contents_url "octo" "demo" ""; contents_url "octo" "demo" "x";
     contents_url "octo" "demo" "y"]
  /\ asked y_first
     = [contents_url "octo" "demo" ""; contents_url "octo" "demo" "y";
        contents_url "octo" "demo" "x"]
  /\ fst (run y_first)
     = Ok ("[x/]" ++ nl ++ "[y/]" ++ nl ++ "    1.txt" ++ nl ++ "    2.txt" ++ nl).
Proof. repeat split; reflexivity. Qed.

(** ** What the assembler of the production version does absorb *)

Section Absorbed.
Context `{Platform}.
Variables (owner repo t : string).

(** A fault of the README fetch, once the rate guard is through, leaves a
    diagnostic and a bound [semaphore]. *)
Lemma readme_fault_absorbed fuel s s1 e s2 :
  Prd.rate_guard (Some t) s = (Ok tt, s1) ->
  Prd.fetch_repo_content owner repo (Some t) fuel "README.md" s1
  = (Raised e, s2) ->
  Prd.first_block owner repo (Some t) fuel s
  = (Ok (true, Prd.readme_failure e), s2).
Proof.
  intros Hguard Hfetch. unfold Prd.first_block, try_except, bind.
  now rewrite Hguard, Hfetch.
Qed.

(** A fault of the walk leaves the text so far and a diagnostic that holds
    [str(e)]. *)
Lemma tree_fault_absorbed fuel sc text s e s1 :
  Prd.build_directory_tree owner repo (Some t) fuel sc "" 0 s = (Raised e, s1) ->
  Prd.second_block owner repo (Some t) fuel sc true text s
  = (Ok (text ++ "Failed to build directory tree: " ++ exc_text e ++ nl), s1).
Proof.
  intros Hwalk. unfold Prd.second_block, try_except, bind.
  now rewrite Hwalk.
Qed.
End Absorbed.

(** ** Scenario A of the specification *)

Example scenario_a :
  let P := static site_a in
  fst (@Simple.build_directory_tree P "octo" "demo" None 3 "" 0 (@start P tt))
  = Ok ("a.py" ++ nl ++ "[sub/]" ++ nl ++ "    b.md" ++ nl, [JStr "A"])
  /\ fst (@Prd.build_directory_tree P "octo" "demo" None 3 in_creation_order
            "" 0 (@start P tt))
     = Ok ("a.py" ++ nl ++ "    " ++ fence ++ "A" ++ fence ++ nl
           ++ "[sub/]" ++ nl
           ++ "    b.md" ++ nl ++ "        " ++ fence ++ "B" ++ fence ++ nl).
Proof. split; reflexivity. Qed.


(** * Further properties *)

(** ** The input locator, continued *)

Lemma split_cons (sep : ascii) (s : string) :
  exists seg segs, split sep s = seg :: segs.
Proof.
  destruct s as [|c rest]; simpl; [now exists "", []|].
  destruct (Ascii.eqb c sep); [now exists "", (split sep rest)|].
  destruct (split sep rest) as [|seg segs]; [now exists (String c ""), []|].
  now exists (String c seg), segs.
Qed.

(** A text has two segments or more exactly when it holds the separator. *)
Lemma split_two (sep : ascii) (s : string) :
  (2 <=? List.length (split sep s))%nat = contains sep s.
Proof.
  induction s as [|c rest IH]; simpl; [reflexivity|].
  destruct (Ascii.eqb c sep); simpl.
  - destruct (split_cons sep rest) as [seg [segs ->]]. reflexivity.
  - destruct (split_cons sep rest) as [seg [segs Hrest]].
    rewrite Hrest in IH |- *. exact IH.
Qed.

Lemma rstrip_clean (c : ascii) (x : string) :
  contains c x = false -> rstrip c x = x.
Proof.
  induction x as [|a x IH]; simpl; [reflexivity|].
  destruct (Ascii.eqb a c) eqn:Ha; simpl; [discriminate|].
  intros Hx. rewrite (IH Hx). now destruct x.
Qed.

Lemma rstrip_step (c a : ascii) (x : string) :
  rstrip c (String a x)
  = match rstrip c x with
    | EmptyString => if Ascii.eqb a c then "" else String a ""
    | kept => String a kept
    end.
Proof. reflexivity. Qed.

(** Stripping on the right leaves a prefix that does not end in the
    stripped character where it is. *)
Lemma rstrip_app_keep (c : ascii) (x y : string) :
  x <> "" -> rstrip c x = x -> rstrip c (x ++ y) = x ++ rstrip c y.
Proof.
  induction x as [|a x IH]; intros Hne Hx; [congruence|].
  rewrite rstrip_step in Hx.
  change (String a x ++ y) with (String a (x ++ y)). rewrite rstrip_step.
  destruct x as [|b x'].
  - simpl in Hx |- *. destruct (Ascii.eqb a c); [discriminate|].
    now destruct (rstrip c y).
  - assert (Hkeep : rstrip c (String b x') = String b x').
    { destruct (rstrip c (String b x')) as [|k kept].
      - destruct (Ascii.eqb a c); discriminate.
      - congruence. }
    rewrite (IH ltac:(discriminate) Hkeep). reflexivity.
Qed.

Lemma split_app_clean (sep : ascii) (x rest : string) :
  contains sep x = false ->
  split sep (x ++ String sep rest) = x :: split sep rest.
Proof.
  induction x as [|a x IH]; simpl.
  - now rewrite Ascii.eqb_refl.
  - destruct (Ascii.eqb a sep); simpl; [discriminate|].
    intros Hx. now rewrite (IH Hx).
Qed.

Lemma split_head_clean (sep : ascii) (x tail : string) :
  contains sep x = false ->
  tail = "" \/ (exists t, tail = String sep t) ->
  exists segs, split sep (x ++ tail) = x :: segs.
Proof.
  intros Hx [-> | [t ->]].
  - exists []. induction x as [|a x IH]; simpl in *; [reflexivity|].
    destruct (Ascii.eqb a sep); simpl in *; [discriminate|].
    now rewrite (IH Hx).
  - exists (split sep t). now apply split_app_clean.
Qed.

Lemma rstrip_tail (c : ascii) (tail : string) :
  tail = "" \/ (exists t, tail = String c t) ->
  rstrip c tail = "" \/ (exists t, rstrip c tail = String c t).
Proof.
  intros [-> | [t ->]]; [now left|]. rewrite rstrip_step.
  destruct (rstrip c t) as [|k kept].
  - left. now rewrite Ascii.eqb_refl.
  - right. now exists (String k kept).
Qed.

Lemma clean_head (c : ascii) (x : string) :
  x <> "" -> contains c x = false ->
  exists a t, x = String a t /\ Ascii.eqb a c = false.
Proof.
  destruct x as [|a t]; [congruence|]. simpl. intros _ Hx.
  exists a, t. split; [reflexivity|]. now destruct (Ascii.eqb a c).
Qed.

(** X1.  What [parse_github_url] accepts: the locators whose path, stripped of
    its leading and trailing slashes, still holds a slash.  Anything else
    is the [ValueError] of [urlparse] or the one of the function. *)
Theorem parse_github_url_accepts `{Platform} (url : string) :
  parse_github_url url
  = match urlparse_path url with
    | inl text => inl (mk_exn ValueError text)
    | inr path =>
        if contains "/" (strip "/" path)
        then inr (nth 0 (split "/" (strip "/" path)) "",
                  nth 1 (split "/" (strip "/" path)) "")
        else inl (mk_exn ValueError "Invalid GitHub URL provided!")
    end.
Proof.
  unfold parse_github_url. destruct (urlparse_path url) as [text|path];
    [reflexivity|].
  now rewrite split_two.
Qed.

(** X2.  A path made of an owner, a repository name and anything after them
    reads back as that owner and that name: further segments and a
    trailing slash are dropped. *)
Theorem parse_github_url_round_trip `{Platform} (url owner repo tail : string) :
  owner <> "" -> contains "/" owner = false ->
  repo <> "" -> contains "/" repo = false ->
  tail = "" \/ (exists t, tail = String "/" t) ->
  urlparse_path url = inr ("/" ++ owner ++ "/" ++ repo ++ tail) ->
  parse_github_url url = inr (owner, repo).
Proof.
  intros Ho Hoc Hr Hrc Htail Hpath. unfold parse_github_url. rewrite Hpath.
  assert (Hstrip : strip "/" ("/" ++ owner ++ "/" ++ repo ++ tail)
                   = owner ++ "/" ++ repo ++ rstrip "/" tail).
  { unfold strip.
    destruct (clean_head "/" owner Ho Hoc) as [a [t [-> Ha]]].
    change (lstrip "/" ("/" ++ String a t ++ "/" ++ repo ++ tail))
      with (lstrip "/" (String a (t ++ "/" ++ repo ++ tail))).
    cbn [lstrip]. rewrite Ha.
    change (String a (t ++ "/" ++ repo ++ tail))
      with (String a t ++ ("/" ++ repo ++ tail)).
    rewrite rstrip_app_keep;
      [|discriminate|now apply rstrip_clean].
    f_equal. change ("/" ++ repo ++ tail) with (String "/" (repo ++ tail)).
    rewrite rstrip_step.
    rewrite (rstrip_app_keep "/" repo tail Hr (rstrip_clean _ _ Hrc)).
    destruct repo; [congruence|reflexivity]. }
  rewrite Hstrip.
  change (owner ++ "/" ++ repo ++ rstrip "/" tail)
    with (owner ++ String "/" (repo ++ rstrip "/" tail)).
  rewrite (split_app_clean "/" owner _ Hoc).
  destruct (split_head_clean "/" repo (rstrip "/" tail) Hrc
              (rstrip_tail "/" tail Htail)) as [segs ->].
  reflexivity.
Qed.

(** The locator the source ships with. *)
Lemma parse_github_url_round_trip_witness :
  @parse_github_url (static site_a) "https://github.com/nomic-ai/nomic/tree/main"
  = inr ("nomic-ai", "nomic").
Proof.
  apply (@parse_github_url_round_trip (static site_a) _ "nomic-ai" "nomic"
           "/tree/main");
    try discriminate; try reflexivity.
  right. now exists "tree/main".
Defined.

(** ** The retrying fetcher, continued *)

Section FetcherMore.
Context `{Platform}.
Variables (owner repo : string) (token : option string).

Local Abbreviation fetch_once := (Prd.fetch_once owner repo token).
Local Abbreviation fetch_repo_content :=
  (Prd.fetch_repo_content owner repo token).
Local Abbreviation req_of path := (contents_request owner repo path token).

Lemma retry_passes_other {A} (target : M A) k s e s' :
  target s = (Raised e, s') -> is_transport_fault e = false ->
  Prd.retry k target s = (Raised e, s').
Proof. destruct k; simpl; intros -> Hcls; now rewrite Hcls. Qed.

Lemma fetch_once_answer again path s resp w' :
  session_get (world s) (req_of path) = (inr resp, w') ->
  fetch_once again path s
  = (if (status resp =? 200)%Z then lift_exn (json_body resp)
     else if (status resp =? 403)%Z || (status resp =? 429)%Z then
       if truthy (retry_after resp) then
         seconds <- lift_sum ValueError
                      (py_int (match retry_after resp with
                               | Some text => text
                               | None => ""
                               end)) ;;
         emit (EvSleep seconds) ;;;
         again
       else raise ClientError (Prd.no_retry_after (status resp))
     else if (status resp =? 404)%Z then raise ClientError "Resource not found."
     else raise_for_status (req_of path) resp)
      (mk_st w' (trace s ++ [EvGet (req_of path)])%list).
Proof.
  intros Hget. unfold Prd.fetch_once.
  now rewrite (bind_ok _ _ _ _ _ (http_get_answer _ _ _ _ Hget)).
Qed.

(** X3.  A Retry-After that [int] refuses ends the fetch at once: the
    [ValueError] is no transport fault, so there is one request, no sleep
    and no further try.  An empty Retry-After counts as no header. *)
Theorem unreadable_delay_is_fatal (fuel : nat) (path : string) (s : st)
    (resp : response) (w' : World) (text : string) :
  session_get (world s) (req_of path) = (inr resp, w') ->
  status resp = 403%Z \/ status resp = 429%Z ->
  retry_after resp = Some text ->
  (forall why, text <> "" -> py_int text = inl why ->
     fetch_repo_content (S fuel) path s
     = (Raised (mk_exn ValueError why),
        mk_st w' (trace s ++ [EvGet (req_of path)])%list))
  /\ (forall again, text = "" ->
      fetch_once again path s
      = (Raised (mk_exn ClientError (Prd.no_retry_after (status resp))),
         mk_st w' (trace s ++ [EvGet (req_of path)])%list)).
Proof.
  intros Hget Hstatus Hheader.
  assert (Hcode : ((status resp =? 200) = false
                   /\ (status resp =? 403) || (status resp =? 429) = true)%Z).
  { destruct Hstatus as [-> | ->]; now split. }
  destruct Hcode as [H200 Hlimit]. split.
  - intros why Htext Hint. rewrite fetch_unfold. unfold Prd.on_exception.
    apply retry_passes_other; [|reflexivity].
    rewrite (fetch_once_answer _ path s resp w' Hget), H200, Hlimit, Hheader.
    destruct text as [|c text]; [congruence|]. cbn [truthy].
    unfold bind. now rewrite Hint.
  - intros again ->.
    rewrite (fetch_once_answer _ path s resp w' Hget), H200, Hlimit, Hheader.
    reflexivity.
Qed.

Lemma prd_fetch_quiet (fuel : nat) (path : string) (s : st)
    (resp : response) (w' : World) :
  session_get (world s) (req_of path) = (inr resp, w') ->
  status resp <> 200%Z -> (status resp < 400)%Z ->
  fetch_repo_content (S fuel) path s
  = (Ok JNull, mk_st w' (trace s ++ [EvGet (req_of path)])%list).
Proof.
  intros Hget H200 Hlow. rewrite fetch_unfold. unfold Prd.on_exception.
  apply retry_ok.
  rewrite (fetch_once_answer _ path s resp w' Hget).
  destruct (Z.eqb_spec (status resp) 200); [contradiction|].
  destruct (Z.eqb_spec (status resp) 403); [lia|].
  destruct (Z.eqb_spec (status resp) 429); [lia|].
  destruct (Z.eqb_spec (status resp) 404); [lia|].
  cbn [orb]. unfold raise_for_status.
  destruct (Z.leb_spec 400 (status resp)); [lia|reflexivity].
Qed.

(** X4.  A status that is neither 200 nor an error (a 204, a 301, a 304) is no
    fault: both fetchers return [None] after one request, and a walk of
    that path raises the [TypeError] of [for item in None], in both
    versions after that one request. *)
Theorem quiet_status_is_no_listing (fuel : nat) (sc : schedule) (path : string)
    (indent : nat) (s : st) (resp : response) (w' : World) :
  session_get (world s) (req_of path) = (inr resp, w') ->
  status resp <> 200%Z -> (status resp < 400)%Z ->
  let s' := mk_st w' (trace s ++ [EvGet (req_of path)])%list in
  let not_iterable := mk_exn TypeError "'NoneType' object is not iterable" in
  fetch_repo_content (S fuel) path s = (Ok JNull, s')
  /\ Simple.fetch_repo_content owner repo token path s = (Ok JNull, s')
  /\ Prd.build_directory_tree owner repo token (S fuel) sc path indent s
     = (Raised not_iterable, s')
  /\ Simple.build_directory_tree owner repo token (S fuel) path indent s
     = (Raised not_iterable, s').
Proof.
  intros Hget H200 Hlow s' not_iterable.
  pose proof (prd_fetch_quiet fuel path s resp w' Hget H200 Hlow) as Hprd.
  assert (Hsimple : Simple.fetch_repo_content owner repo token path s
                    = (Ok JNull, s')).
  { unfold Simple.fetch_repo_content.
    rewrite (bind_ok _ _ _ _ _ (http_get_answer _ _ _ _ Hget)).
    destruct (Z.eqb_spec (status resp) 200); [contradiction|].
    unfold raise_for_status.
    destruct (Z.leb_spec 400 (status resp)); [lia|reflexivity]. }
  split; [exact Hprd|]. split; [exact Hsimple|]. split.
  - cbn [Prd.build_directory_tree].
    now rewrite (bind_ok _ _ _ _ _ Hprd).
  - cbn [Simple.build_directory_tree].
    now rewrite (bind_ok _ _ _ _ _ Hsimple).
Qed.

Lemma fetch_once_refused again path s resp w' :
  session_get (world s) (req_of path) = (inr resp, w') ->
  is_refusal resp = true ->
  fetch_once again path s
  = (Raised (status_fault (req_of path) resp),
     mk_st w' (trace s ++ [EvGet (req_of path)])%list)
  /\ is_transport_fault (status_fault (req_of path) resp) = true.
Proof.
  intros Hget Href. rewrite (fetch_once_answer _ path s resp w' Hget).
  unfold is_refusal in Href. apply andb_prop in Href. destruct Href as [Hhigh Hno].
  apply Z.leb_le in Hhigh. unfold status_fault.
  destruct (Z.eqb_spec (status resp) 200); [lia|].
  destruct ((status resp =? 403)%Z || (status resp =? 429)%Z).
  - simpl in Hno. apply negb_true_iff in Hno. rewrite Hno. now split.
  - destruct (status resp =? 404)%Z; [now split|].
    unfold raise_for_status.
    destruct (Z.leb_spec 400 (status resp)); [now split|lia].
Qed.

Lemma refusing_positive path n w w' resp :
  refusing (req_of path) n w w' resp -> 1 <= n.
Proof. induction 1; lia. Qed.

Lemma retry_refusing again path n w w' resp :
  refusing (req_of path) n w w' resp ->
  forall tr,
    Prd.retry (n - 1) (fetch_once again path) (mk_st w tr)
    = (Raised (status_fault (req_of path) resp),
       mk_st w' (tr ++ tries (req_of path) (n - 1))%list).
Proof.
  induction 1 as [w w' resp Hget Href
                 | n w w1 w' resp last Hget Href Hrest IH]; intros tr.
  - destruct (fetch_once_refused again path (mk_st w tr) resp w' Hget Href)
      as [Honce _].
    simpl. now apply retry_last.
  - pose proof (refusing_positive _ _ _ _ _ Hrest) as Hn.
    destruct (fetch_once_refused again path (mk_st w tr) resp w1 Hget Href)
      as [Honce Hcls].
    replace (S n - 1) with (S (n - 1)) by lia.
    rewrite (retry_again _ _ _ _ _ Honce Hcls).
    cbn [world trace]. rewrite IH. cbn [tries]. now rewrite <- !app_assoc.
Qed.

(** X5.  Every error status is retried like a transport fault: a 500, a 404, a
    403 or 429 without a delay.  When the service refuses eight times in a
    row the production fetch has asked eight times, waited seven times, and
    raises the fault of the last answer. *)
Theorem error_status_is_retried (fuel : nat) (path : string) (s : st)
    (w' : World) (resp : response) :
  refusing (req_of path) 8 (world s) w' resp ->
  fetch_repo_content (S fuel) path s
  = (Raised (status_fault (req_of path) resp),
     mk_st w' (trace s ++ tries (req_of path) 7)%list)
  /\ attempts (tries (req_of path) 7) = 8.
Proof.
  intros Href. split; [|exact (attempts_tries _ 7)].
  destruct s as [w tr]. rewrite fetch_unfold. unfold Prd.on_exception.
  exact (retry_refusing _ path 8 w w' resp Href tr).
Qed.

Lemma retry_passes_divergence {A} (target : M A) k s s' :
  target s = (Diverged, s') -> Prd.retry k target s = (Diverged, s').
Proof. destruct k; simpl; now intros ->. Qed.

Lemma fetch_throttling path delay n w w' :
  throttling (req_of path) delay n w w' ->
  forall tr,
    fetch_repo_content n path (mk_st w tr)
    = (Raised (mk_exn RecursionError recursion_error_text),
       mk_st w' (tr ++ throttles (req_of path) delay n)%list).
Proof.
  induction 1 as [w | n w w1 w' resp text Hget Hstatus Hheader Hint _ IH];
    intros tr.
  - cbn [Prd.fetch_repo_content throttles]. now rewrite app_nil_r.
  - rewrite fetch_unfold. unfold Prd.on_exception.
    apply retry_passes_other; [|reflexivity].
    rewrite (fetch_once_delay owner repo token _ path (mk_st w tr) resp w1
               text delay Hget Hstatus Hheader Hint).
    cbn [world trace]. rewrite IH. cbn [throttles]. now rewrite <- app_assoc.
Qed.

(** X6.  The Retry-After tier has no bound of its own.  Against a service
    that answers a path with a 403 or a 429 and a readable Retry-After
    whatever was asked before, the production fetch ends at the recursion
    limit only: with room for [room] nested calls it asks [room] times,
    sleeps after each answer, never waits for the backoff tier, and raises
    the [RecursionError], which that tier does not retry. *)
Theorem persistent_throttle_ends_at_recursion_limit (delay : Z) (path : string) :
  (forall w, exists resp w' text,
      session_get w (req_of path) = (inr resp, w')
      /\ (status resp = 403%Z \/ status resp = 429%Z)
      /\ retry_after resp = Some text
      /\ py_int text = inr delay) ->
  forall room s,
  exists w',
    fetch_repo_content room path s
    = (Raised (mk_exn RecursionError recursion_error_text),
       mk_st w' (trace s ++ throttles (req_of path) delay room)%list)
    /\ attempts (throttles (req_of path) delay room) = room
    /\ ~ In EvBackoff (throttles (req_of path) delay room).
Proof.
  intros Hbusy room s.
  assert (Hrun : forall n w, exists w', throttling (req_of path) delay n w w').
  { induction n as [|n IH]; intros w.
    - exists w. constructor.
    - destruct (Hbusy w) as [resp [w1 [text [Hget [Hstatus [Hhdr Hint]]]]]].
      destruct (IH w1) as [w' Hrest]. exists w'.
      now apply (throttling_more _ _ n w w1 w' resp text). }
  destruct (Hrun room (world s)) as [w' Hthr]. exists w'.
  split; [destruct s as [w tr]; now apply fetch_throttling|].
  split.
  - clear. unfold attempts. induction room as [|n IH]; simpl; [reflexivity|].
    now rewrite IH.
  - clear. induction room as [|n IH]; simpl; [tauto|].
    intros [Heq|[Heq|Hin]]; [discriminate|discriminate|tauto].
Qed.

Lemma reissues_no_backoff (r : request) (d : Z) (n : nat) :
  ~ In EvBackoff (reissues r d n).
Proof.
  induction n as [|n IH]; simpl.
  - intros [Heq|[]]. discriminate.
  - intros [Heq|[Heq|Hin]]; [discriminate|discriminate|tauto].
Qed.

Lemma unannounced_refusal path resp :
  unannounced resp = true ->
  is_refusal resp = true
  /\ status_fault (req_of path) resp
     = mk_exn ClientError (Prd.no_retry_after (status resp)).
Proof.
  unfold unannounced, is_refusal, status_fault. intros Hun.
  apply andb_prop in Hun. destruct Hun as [Hcode Hquiet]. rewrite Hcode.
  split; [|reflexivity].
  apply negb_true_iff in Hquiet. rewrite Hquiet. simpl. rewrite andb_true_r.
  apply Z.leb_le. apply orb_prop in Hcode.
  destruct Hcode as [Hc|Hc]; apply Z.eqb_eq in Hc; lia.
Qed.

Lemma retry_limited again path body n w w' :
  limited (req_of path) body n w w' ->
  forall k tr, n <= k ->
    Prd.retry k (fetch_once again path) (mk_st w tr)
    = (Ok body, mk_st w' (tr ++ tries (req_of path) n)%list).
Proof.
  induction 1 as [w w' resp Hget Hstatus Hbody
                 | n w w1 w' resp Hget Hun _ IH]; intros k tr Hk.
  - apply retry_ok.
    now apply (fetch_once_200 owner repo token again path (mk_st w tr) resp).
  - destruct k as [|k]; [lia|].
    destruct (unannounced_refusal path resp Hun) as [Href _].
    destruct (fetch_once_refused again path (mk_st w tr) resp w1 Hget Href)
      as [Honce Hcls].
    rewrite (retry_again _ _ _ _ _ Honce Hcls).
    cbn [world trace]. rewrite IH by lia. cbn [tries].
    now rewrite <- !app_assoc.
Qed.

Lemma limiting_refusing path n w w' last :
  limiting (req_of path) n w w' last ->
  refusing (req_of path) n w w' last /\ unannounced last = true.
Proof.
  induction 1 as [w w' resp Hget Hun
                 | n w w1 w' resp last Hget Hun _ [IH Hlast]].
  - split; [|exact Hun].
    apply refusing_last; [exact Hget|].
    exact (proj1 (unannounced_refusal path resp Hun)).
  - split; [|exact Hlast].
    apply (refusing_more _ n w w1 w' resp last); [exact Hget| |exact IH].
    exact (proj1 (unannounced_refusal path resp Hun)).
Qed.

(** C5, as the code has it.  On a 403 or a 429 the try looks at the
    Retry-After header.
    - A value that [int] reads: the try sleeps that long and calls the
      decorated fetch again, with no wait of the backoff tier.  What that
      call returns, or raises outside the classes the backoff tier
      retries, is the outcome of the fetch; a fault of those classes,
      which the call raises after its own eight tries, makes the calling
      tier wait and try again.  So [n] such answers and a 200 cost
      [n + 1] requests and [n] sleeps, for every [n] there is room for;
      when the service throttles for as long as there is room, the fetch
      raises the [RecursionError].
    - A value that is not empty and that [int] refuses: the [ValueError]
      of [int] is raised at once, after one request.
    - No value, or an empty one: the try raises the rate-limit
      [ClientError], which the backoff tier retries as it does a
      transport fault; eight such answers in a row end the fetch. *)
Theorem rate_limit_tiers (room : nat) (path : string) (s : st) :
  (forall n delay body w',
      throttled (req_of path) delay body n (world s) w' ->
      fetch_repo_content (S (n + room)) path s
      = (Ok body, mk_st w' (trace s ++ reissues (req_of path) delay n)%list)
      /\ attempts (reissues (req_of path) delay n) = n + 1
      /\ ~ In EvBackoff (reissues (req_of path) delay n))
  /\ (forall resp w' text seconds,
      session_get (world s) (req_of path) = (inr resp, w') ->
      status resp = 403%Z \/ status resp = 429%Z ->
      retry_after resp = Some text -> py_int text = inr seconds ->
      let slept :=
        mk_st w' (trace s ++ [EvGet (req_of path); EvSleep seconds])%list in
      (forall r s',
          fetch_repo_content room path slept = (r, s') ->
          (forall e, r = Raised e -> is_transport_fault e = false) ->
          fetch_repo_content (S room) path s = (r, s'))
      /\ (forall e s',
          fetch_repo_content room path slept = (Raised e, s') ->
          is_transport_fault e = true ->
          fetch_repo_content (S room) path s
          = Prd.retry 6 (fetch_once (fetch_repo_content room path) path)
              (mk_st (world s') (trace s' ++ [EvBackoff])%list)))
  /\ (forall delay w',
      throttling (req_of path) delay room (world s) w' ->
      fetch_repo_content room path s
      = (Raised (mk_exn RecursionError recursion_error_text),
         mk_st w' (trace s ++ throttles (req_of path) delay room)%list))
  /\ (forall resp w' text why,
      session_get (world s) (req_of path) = (inr resp, w') ->
      status resp = 403%Z \/ status resp = 429%Z ->
      retry_after resp = Some text -> text <> "" -> py_int text = inl why ->
      fetch_repo_content (S room) path s
      = (Raised (mk_exn ValueError why),
         mk_st w' (trace s ++ [EvGet (req_of path)])%list))
  /\ (forall n body w',
      limited (req_of path) body n (world s) w' -> n <= 7 ->
      fetch_repo_content (S room) path s
      = (Ok body, mk_st w' (trace s ++ tries (req_of path) n)%list))
  /\ (forall w' last,
      limiting (req_of path) 8 (world s) w' last ->
      fetch_repo_content (S room) path s
      = (Raised (mk_exn ClientError (Prd.no_retry_after (status last))),
         mk_st w' (trace s ++ tries (req_of path) 7)%list)).
Proof.
  split; [|split; [|split; [|split; [|split]]]].
  - intros n delay body w' Hthr.
    split; [|split; [apply attempts_reissues|apply reissues_no_backoff]].
    destruct s as [w tr]. now apply fetch_throttled.
  - intros resp w' text seconds Hget Hstatus Hheader Hint slept.
    pose proof (fetch_once_delay owner repo token
                  (fetch_repo_content room path) path s resp w' text seconds
                  Hget Hstatus Hheader Hint) as Honce.
    fold slept in Honce. split.
    + intros r s' Hrun Hclass. rewrite fetch_unfold. unfold Prd.on_exception.
      rewrite Hrun in Honce. destruct r as [a| e |].
      * now apply retry_ok.
      * apply retry_passes_other; [exact Honce|]. now apply Hclass.
      * now apply retry_passes_divergence.
    + intros e s' Hrun Hclass. rewrite fetch_unfold. unfold Prd.on_exception.
      rewrite Hrun in Honce. cbn [Nat.sub].
      exact (retry_again _ 6 _ _ _ Honce Hclass).
  - intros delay w' Hthr. destruct s as [w tr]. now apply fetch_throttling.
  - intros resp w' text why Hget Hstatus Hheader Htext Hint.
    rewrite fetch_unfold. unfold Prd.on_exception.
    apply retry_passes_other; [|reflexivity].
    rewrite (fetch_once_answer _ path s resp w' Hget).
    assert (Hcode : ((status resp =? 200) = false
                     /\ (status resp =? 403) || (status resp =? 429) = true)%Z).
    { destruct Hstatus as [-> | ->]; now split. }
    destruct Hcode as [-> ->]. rewrite Hheader.
    destruct text as [|c text]; [congruence|]. cbn [truthy].
    unfold bind. now rewrite Hint.
  - intros n body w' Hlim Hn. destruct s as [w tr].
    rewrite fetch_unfold. unfold Prd.on_exception. now apply retry_limited.
  - intros w' last Hlim. destruct s as [w tr].
    destruct (limiting_refusing path 8 w w' last Hlim) as [Href Hlast].
    rewrite fetch_unfold. unfold Prd.on_exception.
    rewrite <- (proj2 (unannounced_refusal path last Hlast)).
    exact (retry_refusing _ path 8 w w' last Href tr).
Qed.
End FetcherMore.

Lemma getitem_fault (v : json) (key : string) (e : exn) :
  getitem v key = inl e -> is_transport_fault e = false.
Proof.
  destruct v; simpl; try (intros Heq; now injection Heq as <-).
  destruct (assoc key fields); [discriminate|].
  intros Heq. now injection Heq as <-.
Qed.

(** ** The rate guard *)

Section RateGuard.
Context `{Platform}.

(** X7.  [fetch_rate_limit_status] does not look at the status: an answer whose
    body has a "rate" field gives that field, and a body without it raises
    the [KeyError] (or [TypeError]) of the lookup, in both cases after one
    request and no further try. *)
Theorem rate_limit_status_once (t : string) (s : st) (resp : response)
    (w' : World) (data : json) :
  session_get (world s) (Prd.rate_limit_request t) = (inr resp, w') ->
  json_body resp = inr data ->
  Prd.fetch_rate_limit_status t s
  = (match getitem data "rate" with
     | inr rate => Ok rate
     | inl e => Raised e
     end,
     mk_st w' (trace s ++ [EvGet (Prd.rate_limit_request t)])%list).
Proof.
  intros Hget Hbody. unfold Prd.fetch_rate_limit_status, Prd.on_exception.
  set (target := (response <- http_get (Prd.rate_limit_request t) ;;
                  rate_limit_data <- lift_exn (json_body response) ;;
                  lift_exn (getitem rate_limit_data "rate"))).
  assert (Hrun : target s
                 = (match getitem data "rate" with
                    | inr rate => Ok rate
                    | inl e => Raised e
                    end,
                    mk_st w' (trace s ++ [EvGet (Prd.rate_limit_request t)])%list)).
  { unfold target.
    rewrite (bind_ok _ _ _ _ _ (http_get_answer _ _ _ _ Hget)), Hbody.
    unfold bind, lift_exn, ret, reraise.
    now destruct (getitem data "rate"). }
  destruct (getitem data "rate") as [e|rate] eqn:Hrate.
  - apply retry_passes_other; [exact Hrun|]. now apply (getitem_fault data "rate").
  - now apply retry_ok.
Qed.

(** X8.  The rate guard, once [fetch_rate_limit_status] has returned.  It
    reads "remaining" and "limit" for the line it prints, so an object
    that lacks one of them makes it raise the [KeyError] of the lookup.
    With both fields and an integer "remaining": at 100 or more the
    guard is through and "reset" is not read; below 100 it reads "reset",
    raises if the field is missing, and sleeps until the reset exactly
    when the reset lies ahead. *)
Theorem rate_guard_sleeps_when_low (t : string) (s s1 : st) (rate : json) :
  Prd.fetch_rate_limit_status t s = (Ok rate, s1) ->
  (forall e, getitem rate "remaining" = inl e ->
     Prd.rate_guard (Some t) s = (Raised e, s1))
  /\ (forall v e,
        getitem rate "remaining" = inr v -> getitem rate "limit" = inl e ->
        Prd.rate_guard (Some t) s = (Raised e, s1))
  /\ (forall remaining limit,
        getitem rate "remaining" = inr (JNum remaining) ->
        getitem rate "limit" = inr limit ->
        ((100 <= remaining)%Z -> Prd.rate_guard (Some t) s = (Ok tt, s1))
        /\ (forall e,
              (remaining < 100)%Z -> getitem rate "reset" = inl e ->
              Prd.rate_guard (Some t) s = (Raised e, s1))
        /\ (forall reset,
              (remaining < 100)%Z -> getitem rate "reset" = inr (JNum reset) ->
              Prd.rate_guard (Some t) s
              = (Ok tt,
                 if (time_time (world s1) <? reset)%Z
                 then mk_st (world s1) (trace s1 ++ [EvSleepUntil reset])%list
                 else s1))).
Proof.
  intros Hfetch. unfold Prd.rate_guard.
  rewrite (bind_ok _ _ _ _ _ Hfetch). split; [|split].
  - intros e Hrem. now rewrite Hrem.
  - intros v e Hrem Hlim. rewrite Hrem, Hlim. reflexivity.
  - intros remaining limit Hrem Hlim. rewrite Hrem, Hlim.
    unfold bind, lift_exn, ret, reraise, py_lt_int, py_number. cbn [fst snd].
    split; [|split].
    + intros Hhigh. destruct (Z.ltb_spec remaining 100); [lia|reflexivity].
    + intros e Hlow Hreset.
      destruct (Z.ltb_spec remaining 100); [|lia]. now rewrite Hreset.
    + intros reset Hlow Hreset.
      destruct (Z.ltb_spec remaining 100); [|lia].
      rewrite Hreset. unfold now, py_gt_time, py_number. cbn.
      now destruct (time_time (world s1) <? reset)%Z.
Qed.
End RateGuard.

(** ** The fetcher and the rate guard at concrete services *)

Lemma unreadable_delay_is_fatal_witness :
  let P := scripted timed_out in
  let req := contents_request "octo" "demo" "a.py" None in
  @Prd.fetch_repo_content P "octo" "demo" None 1 "a.py"
    (@start P [answer_status 429 (Some "soon"); ok_json (JStr "A")])
  = (Raised (mk_exn ValueError "invalid literal for int() with base 10: 'soon'"),
     @mk_st P [ok_json (JStr "A")] [EvGet req]).
Proof.
  intros P req.
  refine (proj1 (@unreadable_delay_is_fatal P "octo" "demo" None 0 "a.py"
                   (@start P [answer_status 429 (Some "soon"); ok_json (JStr "A")])
                   (mk_response 429 (Some "soon") (inr JNull))
                   [ok_json (JStr "A")] "soon" eq_refl (or_intror eq_refl)
                   eq_refl) _ _ eq_refl).
  discriminate.
Defined.

Lemma quiet_status_is_no_listing_witness :
  let P := scripted timed_out in
  let s := @start P [answer_status 204 None] in
  let s' := @mk_st P [] [EvGet (contents_request "octo" "demo" "docs" None)] in
  let not_iterable := mk_exn TypeError "'NoneType' object is not iterable" in
  @Prd.fetch_repo_content P "octo" "demo" None 1 "docs" s = (Ok JNull, s')
  /\ @Simple.fetch_repo_content P "octo" "demo" None "docs" s = (Ok JNull, s')
  /\ @Prd.build_directory_tree P "octo" "demo" None 1 in_creation_order "docs" 0 s
     = (Raised not_iterable, s')
  /\ @Simple.build_directory_tree P "octo" "demo" None 1 "docs" 0 s
     = (Raised not_iterable, s').
Proof.
  intros P s s' not_iterable.
  apply (@quiet_status_is_no_listing P "octo" "demo" None 0 in_creation_order
           "docs" 0 s (mk_response 204 None (inr JNull)) []);
    [reflexivity | discriminate | reflexivity].
Defined.

Lemma error_status_is_retried_witness :
  let P := scripted (answer_status 500 None) in
  let req := contents_request "octo" "demo" "a.py" None in
  @Prd.fetch_repo_content P "octo" "demo" None 1 "a.py" (@start P [])
  = (Raised (mk_exn ClientResponseError "status error"),
     @mk_st P [] (tries req 7))
  /\ attempts (tries req 7) = 8.
Proof.
  intros P req.
  apply (@error_status_is_retried P "octo" "demo" None 0 "a.py" (@start P []) []
           (mk_response 500 None (inr JNull))).
  do 7 (eapply refusing_more; [reflexivity|reflexivity|]).
  now eapply refusing_last.
Defined.

Lemma persistent_throttle_ends_at_recursion_limit_witness :
  let P := static site_busy in
  let req := contents_request "octo" "demo" "a.py" None in
  exists w',
    @Prd.fetch_repo_content P "octo" "demo" None 3 "a.py" (@start P tt)
    = (Raised (mk_exn RecursionError "maximum recursion depth exceeded"),
       @mk_st P w' (throttles req 1 3))
    /\ attempts (throttles req 1 3) = 3
    /\ ~ In EvBackoff (throttles req 1 3).
Proof.
  intros P req.
  apply (@persistent_throttle_ends_at_recursion_limit P "octo" "demo" None
           1%Z "a.py").
  intros w. exists (mk_response 429 (Some "1") (inr JNull)), w, "1".
  repeat split. now right.
Defined.

(** C5, at concrete transports.  Nine 429 answers with [Retry-After: 2]
    and then the file make ten requests and nine sleeps, and no wait of
    the backoff tier.  One such answer and then the file: the outcome is
    the one of the call made after the sleep.  One such answer and then
    timeouts for good: the call made after the sleep gives up after eight
    requests, the calling tier after seven more.  Two such answers with
    room for two calls end in the [RecursionError].  A Retry-After that
    is no number ends the fetch.  A 403 without the header is retried
    after a wait, and eight of them end the fetch. *)
Lemma rate_limit_tiers_witness :
  let P := scripted timed_out in
  let req := contents_request "octo" "demo" "a.py" None in
  let busy := answer_status 429 (Some "2") in
  let bare := answer_status 403 None in
  (@Prd.fetch_repo_content P "octo" "demo" None 10 "a.py"
     (@start P [busy; busy; busy; busy; busy; busy; busy; busy; busy;
                ok_json (JStr "A")])
   = (Ok (JStr "A"), @mk_st P [] (reissues req 2 9))
   /\ attempts (reissues req 2 9) = 10
   /\ ~ In EvBackoff (reissues req 2 9))
  /\ @Prd.fetch_repo_content P "octo" "demo" None 2 "a.py"
       (@start P [busy; ok_json (JStr "A")])
     = (Ok (JStr "A"), @mk_st P [] [EvGet req; EvSleep 2; EvGet req])
  /\ (@Prd.fetch_repo_content P "octo" "demo" None 2 "a.py" (@start P [busy])
      = (Raised (mk_exn TimeoutError ""),
         @mk_st P []
           ([EvGet req; EvSleep 2] ++ tries req 7 ++ [EvBackoff] ++ tries req 6))
      /\ attempts ([EvGet req; EvSleep 2] ++ tries req 7 ++ [EvBackoff]
                   ++ tries req 6) = 16)
  /\ @Prd.fetch_repo_content P "octo" "demo" None 2 "a.py"
       (@start P [busy; busy; ok_json (JStr "A")])
     = (Raised (mk_exn RecursionError "maximum recursion depth exceeded"),
        @mk_st P [ok_json (JStr "A")]
          [EvGet req; EvSleep 2; EvGet req; EvSleep 2])
  /\ @Prd.fetch_repo_content P "octo" "demo" None 1 "a.py"
       (@start P [answer_status 403 (Some "a while"); ok_json (JStr "A")])
     = (Raised (mk_exn ValueError
                  "invalid literal for int() with base 10: 'a while'"),
        @mk_st P [ok_json (JStr "A")] [EvGet req])
  /\ @Prd.fetch_repo_content P "octo" "demo" None 1 "a.py"
       (@start P [bare; ok_json (JStr "A")])
     = (Ok (JStr "A"), @mk_st P [] [EvGet req; EvBackoff; EvGet req])
  /\ @Prd.fetch_repo_content P "octo" "demo" None 1 "a.py"
       (@start P [bare; bare; bare; bare; bare; bare; bare; bare;
                  ok_json (JStr "A")])
     = (Raised (mk_exn ClientError
                  "Rate limit exceeded with status 403. No Retry-After header provided."),
        @mk_st P [ok_json (JStr "A")] (tries req 7)).
Proof.
  intros P req busy bare.
  split; [|split; [|split; [|split; [|split; [|split]]]]].
  - pose proof (@rate_limit_tiers P "octo" "demo" None 0 "a.py"
                  (@start P [busy; busy; busy; busy; busy; busy; busy; busy;
                             busy; ok_json (JStr "A")]))
      as [Hloop _].
    apply (Hloop 9 2%Z (JStr "A") []).
    repeat (eapply throttled_wait;
            [reflexivity | right; reflexivity | reflexivity | reflexivity | ]).
    now eapply throttled_answer.
  - pose proof (@rate_limit_tiers P "octo" "demo" None 1 "a.py"
                  (@start P [busy; ok_json (JStr "A")]))
      as [_ [Hstep _]].
    apply (proj1 (Hstep (mk_response 429 (Some "2") (inr JNull))
                    [ok_json (JStr "A")] "2" 2%Z eq_refl (or_intror eq_refl)
                    eq_refl eq_refl));
      [reflexivity|discriminate].
  - split; [|reflexivity].
    pose proof (@rate_limit_tiers P "octo" "demo" None 1 "a.py"
                  (@start P [busy]))
      as [_ [Hstep _]].
    rewrite (proj2 (Hstep (mk_response 429 (Some "2") (inr JNull)) [] "2" 2%Z
                      eq_refl (or_intror eq_refl) eq_refl eq_refl)
               (mk_exn TimeoutError "")
               (@mk_st P [] ([EvGet req; EvSleep 2] ++ tries req 7))
               eq_refl eq_refl).
    reflexivity.
  - pose proof (@rate_limit_tiers P "octo" "demo" None 2 "a.py"
                  (@start P [busy; busy; ok_json (JStr "A")]))
      as [_ [_ [Hlimit _]]].
    apply (Hlimit 2%Z [ok_json (JStr "A")]).
    do 2 (eapply throttling_more;
          [reflexivity | right; reflexivity | reflexivity | reflexivity | ]).
    apply throttling_none.
  - pose proof (@rate_limit_tiers P "octo" "demo" None 0 "a.py"
                  (@start P [answer_status 403 (Some "a while");
                             ok_json (JStr "A")]))
      as [_ [_ [_ [Hbad _]]]].
    apply (Hbad (mk_response 403 (Some "a while") (inr JNull))
             [ok_json (JStr "A")] "a while");
      [reflexivity | left; reflexivity | reflexivity | discriminate
      | reflexivity].
  - pose proof (@rate_limit_tiers P "octo" "demo" None 0 "a.py"
                  (@start P [bare; ok_json (JStr "A")]))
      as [_ [_ [_ [_ [Hretried _]]]]].
    apply (Hretried 1 (JStr "A") []); [|lia].
    eapply limited_more; [reflexivity|reflexivity|].
    now eapply limited_answer.
  - pose proof (@rate_limit_tiers P "octo" "demo" None 0 "a.py"
                  (@start P [bare; bare; bare; bare; bare; bare; bare; bare;
                             ok_json (JStr "A")]))
      as [_ [_ [_ [_ [_ Hgiven_up]]]]].
    apply (Hgiven_up [ok_json (JStr "A")] (mk_response 403 None (inr JNull))).
    do 7 (eapply limiting_more; [reflexivity|reflexivity|]).
    now eapply limiting_last.
Defined.

(** C5, where the claim fails: a Retry-After may be a date.  The header
    is present, and the fetch neither sleeps nor asks again: it raises the
    [ValueError] of [int], and the answer that would have followed is
    never asked for. *)
Lemma retry_after_date_is_not_slept :
  let P := scripted timed_out in
  let req := contents_request "octo" "demo" "a.py" None in
  let date := "Wed, 21 Oct 2015 07:28:00 GMT" in
  @Prd.fetch_repo_content P "octo" "demo" None 3 "a.py"
    (@start P [answer_status 429 (Some date); ok_json (JStr "A")])
  = (Raised (mk_exn ValueError
               "invalid literal for int() with base 10: 'Wed, 21 Oct 2015 07:28:00 GMT'"),
     @mk_st P [ok_json (JStr "A")] [EvGet req]).
Proof. reflexivity. Qed.

Lemma rate_limit_status_once_witness :
  let P := static site_no_quota in
  @Prd.fetch_rate_limit_status P "t" (@start P tt)
  = (Raised (mk_exn KeyError "'rate'"),
     @mk_st P tt [EvGet (Prd.rate_limit_request "t")]).
Proof.
  intros P.
  apply (@rate_limit_status_once P "t" (@start P tt)
           (mk_response 404 None (inr (JObj [("message", JStr "Not Found")])))
           tt (JObj [("message", JStr "Not Found")]));
    reflexivity.
Defined.

(** A rate object without "limit", and one with five requests left. *)
Lemma rate_guard_sleeps_when_low_witness :
  (let P := static site_unlimited in
   @Prd.rate_guard P (Some "t") (@start P tt)
   = (Raised (mk_exn KeyError "'limit'"),
      @mk_st P tt [EvGet (Prd.rate_limit_request "t")]))
  /\ (let P := static site_low_quota in
      @Prd.rate_guard P (Some "t") (@start P tt)
      = (Ok tt,
         @mk_st P tt [EvGet (Prd.rate_limit_request "t"); EvSleepUntil 100])).
Proof.
  split.
  - intros P.
    refine (proj1 (proj2 (@rate_guard_sleeps_when_low P "t" (@start P tt)
                            (@mk_st P tt [EvGet (Prd.rate_limit_request "t")])
                            (JObj [("remaining", JNum 5); ("reset", JNum 100)])
                            eq_refl))
              (JNum 5) (mk_exn KeyError "'limit'") eq_refl eq_refl).
  - intros P.
    refine (proj2 (proj2 (proj2 (proj2 (@rate_guard_sleeps_when_low P "t"
                     (@start P tt)
                     (@mk_st P tt [EvGet (Prd.rate_limit_request "t")])
                     low_quota eq_refl))
                   5%Z (JNum 5000) eq_refl eq_refl))
              100%Z _ eq_refl).
    reflexivity.
Defined.

(** ** The loops over a listing *)

Lemma str_app_assoc (a b c : string) : (a ++ b) ++ c = a ++ (b ++ c).
Proof. induction a as [|x a IH]; simpl; [reflexivity|now rewrite IH]. Qed.

Lemma str_app_nil_r (a : string) : a ++ "" = a.
Proof. induction a as [|x a IH]; simpl; [reflexivity|now rewrite IH]. Qed.

Lemma grown_grown {S : Type} t tasks a b
    (r : result (string * list string) * S) :
  grown t tasks (grown a b r) = grown (t ++ a) (tasks ++ b)%list r.
Proof.
  unfold grown. destruct r as [[[text more]| e |] s]; simpl; try reflexivity.
  now rewrite str_app_assoc, app_assoc.
Qed.

Lemma grown_raised {S : Type} t tasks e (s : S) :
  grown t tasks (Raised e, s) = (Raised e, s).
Proof. reflexivity. Qed.

Section Loops.
Context `{Platform}.

Lemma simple_visit_grown recur indent item next :
  (forall t tasks s, next t tasks s = grown t tasks (next "" [] s)) ->
  forall t tasks s,
    Simple.visit recur indent item next t tasks s
    = grown t tasks (Simple.visit recur indent item next "" [] s).
Proof.
  intros Hnext t tasks s. unfold Simple.visit, bind, lift_exn, ret, reraise.
  destruct (getitem item "path") as [e|path]; [reflexivity|].
  destruct (py_split path) as [e|segments]; [reflexivity|].
  destruct (py_in marker segments); [apply Hnext|].
  destruct (getitem item "type") as [e|type]; [reflexivity|].
  destruct (py_eq_str type "dir").
  - destruct (getitem item "name") as [e|name]; [reflexivity|].
    destruct (recur (py_format path) (S indent) s) as [[[sub ?]| e |] s1];
      try reflexivity.
    rewrite (Hnext ((t ++ _) ++ sub)), (Hnext (("" ++ _) ++ sub)).
    rewrite grown_grown. cbn [append app]. now rewrite str_app_assoc, app_nil_r.
  - destruct (getitem item "name") as [e|name]; [reflexivity|].
    destruct (py_endswith name allow_list) as [e|[|]]; try reflexivity.
    + rewrite (Hnext (t ++ _)), (Hnext ("" ++ _)).
      rewrite grown_grown. cbn [append app]. reflexivity.
    + rewrite (Hnext (t ++ _)), (Hnext ("" ++ _)).
      rewrite grown_grown. cbn [append app]. now rewrite app_nil_r.
Qed.

Lemma prd_visit_grown fetch indent item next :
  (forall t tasks s, next t tasks s = grown t tasks (next "" [] s)) ->
  forall t tasks s,
    Prd.visit fetch indent item next t tasks s
    = grown t tasks (Prd.visit fetch indent item next "" [] s).
Proof.
  intros Hnext t tasks s. unfold Prd.visit, bind, lift_exn, ret, reraise.
  destruct (getitem item "path") as [e|path]; [reflexivity|].
  destruct (py_split path) as [e|segments]; [reflexivity|].
  destruct (py_in marker segments); [apply Hnext|].
  destruct (getitem item "type") as [e|type]; [reflexivity|].
  destruct (py_eq_str type "dir").
  - destruct (getitem item "name") as [e|name]; [reflexivity|].
    rewrite (Hnext (t ++ _)), (Hnext ("" ++ _)).
    rewrite grown_grown. cbn [append app]. reflexivity.
  - destruct (getitem item "name") as [e|name]; [reflexivity|].
    destruct (py_endswith name allow_list) as [e|[|]]; try reflexivity.
    + destruct (fetch (py_format path) s) as [[info| e |] s1]; try reflexivity.
      destruct (get_file_content info) as [e|content]; [reflexivity|].
      destruct (py_concat _ content) as [e|block]; [reflexivity|].
      rewrite (Hnext ((t ++ _) ++ _)), (Hnext (("" ++ _) ++ _)).
      rewrite grown_grown. cbn [append app].
      now rewrite str_app_assoc, app_nil_r.
    + rewrite (Hnext (t ++ _)), (Hnext ("" ++ _)).
      rewrite grown_grown. cbn [append app]. now rewrite app_nil_r.
Qed.

(** X9.  The loops only append: started from a tree text and a list of tasks,
    a loop returns that text and that list followed by what it returns
    when started from nothing, raises what it raises then, and leaves the
    same state. *)
Theorem loops_only_append :
  (forall recur indent items t tasks s,
      Simple.walk_items recur indent items t tasks s
      = grown t tasks (Simple.walk_items recur indent items "" [] s))
  /\ (forall fetch indent items t tasks s,
      Prd.walk_items fetch indent items t tasks s
      = grown t tasks (Prd.walk_items fetch indent items "" [] s)).
Proof.
  split.
  - intros recur indent items. induction items as [|item rest IH];
      intros t tasks s.
    + unfold grown. simpl. now rewrite str_app_nil_r, app_nil_r.
    + cbn [Simple.walk_items]. now apply simple_visit_grown.
  - intros fetch indent items. induction items as [|item rest IH];
      intros t tasks s.
    + unfold grown. simpl. now rewrite str_app_nil_r, app_nil_r.
    + cbn [Prd.walk_items]. now apply prd_visit_grown.
Qed.

Lemma simple_visit_then recur indent item next
    (k : string -> list string -> M (string * list string)) t ts s :
  Simple.visit recur indent item
    (fun a b => ' (x, y) <- next a b ;; k x y) t ts s
  = (' (x, y) <- Simple.visit recur indent item next t ts ;; k x y) s.
Proof.
  unfold Simple.visit, bind, lift_exn, ret, reraise.
  destruct (getitem item "path") as [e|path]; [reflexivity|].
  destruct (py_split path) as [e|segments]; [reflexivity|].
  destruct (py_in marker segments); [reflexivity|].
  destruct (getitem item "type") as [e|type]; [reflexivity|].
  destruct (py_eq_str type "dir").
  - destruct (getitem item "name") as [e|name]; [reflexivity|].
    destruct (recur (py_format path) (S indent) s) as [[[sub ?]| e |] s1];
      reflexivity.
  - destruct (getitem item "name") as [e|name]; [reflexivity|].
    destruct (py_endswith name allow_list) as [e|[|]]; reflexivity.
Qed.

Lemma prd_visit_then fetch indent item next
    (k : string -> list string -> M (string * list string)) t ts s :
  Prd.visit fetch indent item
    (fun a b => ' (x, y) <- next a b ;; k x y) t ts s
  = (' (x, y) <- Prd.visit fetch indent item next t ts ;; k x y) s.
Proof.
  unfold Prd.visit, bind, lift_exn, ret, reraise.
  destruct (getitem item "path") as [e|path]; [reflexivity|].
  destruct (py_split path) as [e|segments]; [reflexivity|].
  destruct (py_in marker segments); [reflexivity|].
  destruct (getitem item "type") as [e|type]; [reflexivity|].
  destruct (py_eq_str type "dir").
  - destruct (getitem item "name") as [e|name]; reflexivity.
  - destruct (getitem item "name") as [e|name]; [reflexivity|].
    destruct (py_endswith name allow_list) as [e|[|]]; try reflexivity.
    destruct (fetch (py_format path) s) as [[info| e |] s1]; try reflexivity.
    destruct (get_file_content info) as [e|content]; [reflexivity|].
    destruct (py_concat _ content) as [e|block]; reflexivity.
Qed.

(** X10.  The loop over a listing in two parts is the loop over the first part
    followed by the loop over the second, which starts from the tree text,
    the tasks and the state the first one ends with; a fault in the first
    part ends both. *)
Theorem loops_compose :
  (forall recur indent xs ys t tasks s,
      Simple.walk_items recur indent (xs ++ ys) t tasks s
      = (' (t', tasks') <- Simple.walk_items recur indent xs t tasks ;;
         Simple.walk_items recur indent ys t' tasks') s)
  /\ (forall fetch indent xs ys t tasks s,
      Prd.walk_items fetch indent (xs ++ ys) t tasks s
      = (' (t', tasks') <- Prd.walk_items fetch indent xs t tasks ;;
         Prd.walk_items fetch indent ys t' tasks') s).
Proof.
  split.
  - intros recur indent xs ys. induction xs as [|item rest IH];
      intros t tasks s; [reflexivity|].
    cbn [app Simple.walk_items].
    rewrite <- simple_visit_then. now apply simple_visit_ext.
  - intros fetch indent xs ys. induction xs as [|item rest IH];
      intros t tasks s; [reflexivity|].
    cbn [app Prd.walk_items].
    rewrite <- prd_visit_then. now apply prd_visit_ext.
Qed.

(** *** Which entries are fetched and which are expanded *)

Lemma fetchable_at (item : json) (p : string) :
  getitem item "path" = inr (JStr p) ->
  fetchable item
  = match getitem item "type", getitem item "name" with
    | inr type, inr (JStr name) =>
        negb (excluded p) && negb (py_eq_str type "dir")
        && existsb (endswith name) allow_list
    | _, _ => false
    end.
Proof. unfold fetchable. now intros ->. Qed.

Lemma subdir_at (item : json) (p : string) :
  getitem item "path" = inr (JStr p) ->
  subdir item
  = match getitem item "type" with
    | inr type => negb (excluded p) && py_eq_str type "dir"
    | inl _ => false
    end.
Proof. unfold subdir. now intros ->. Qed.

Lemma entry_path_at (item : json) (p : string) :
  getitem item "path" = inr (JStr p) -> entry_path item = p.
Proof. unfold entry_path. now intros ->. Qed.

Ltac leaf IH Hp :=
  let Hrun := fresh "Hrun" in
  cbn [negb andb orb map]; intros Hrun; rewrite (IH _ _ _ _ _ Hrun);
  cbn [map]; rewrite ?(entry_path_at _ _ Hp), <- ?app_assoc; reflexivity.

(** The content fetches of the sequential version: when the loop returns,
    the fetches it leaves for [asyncio.gather] are those it was given and
    then, in listing order, the paths of the fetchable entries. *)
Lemma simple_tasks_are_fetchable recur indent items :
  forall t tasks s t' tasks',
    fst (Simple.walk_items recur indent items t tasks s) = Ok (t', tasks') ->
    tasks' = (tasks ++ map entry_path (filter fetchable items))%list.
Proof.
  induction items as [|item rest IH]; intros t tasks s t' tasks'.
  - simpl. intros Heq. injection Heq as _ <-. now rewrite app_nil_r.
  - cbn [Simple.walk_items filter].
    unfold Simple.visit, bind, lift_exn, ret, reraise.
    destruct (getitem item "path") as [e|path] eqn:Hp; [discriminate|].
    destruct path as [| | |p| |]; try discriminate. cbn [py_split py_format].
    rewrite (fetchable_at _ _ Hp).
    change (py_in marker (split "/" p)) with (excluded p).
    destruct (excluded p).
    { destruct (getitem item "type") as [e|type];
        [|destruct (getitem item "name") as [e|[| | |n| |]]]; leaf IH Hp. }
    destruct (getitem item "type") as [e|type]; [discriminate|].
    destruct (py_eq_str type "dir").
    + destruct (getitem item "name") as [e|name]; [discriminate|].
      destruct (recur p (S indent) s) as [[[sub ?]| e |] s1]; try discriminate.
      destruct name; leaf IH Hp.
    + destruct (getitem item "name") as [e|name]; [discriminate|].
      destruct name as [| | |n| |]; try discriminate. cbn [py_endswith].
      destruct (existsb (endswith n) allow_list); leaf IH Hp.
Qed.

(** The sub-walks of the production version: when the loop returns, the
    tasks are those it was given and then, in listing order, the paths of
    the directories that are not skipped. *)
Lemma prd_tasks_are_subdirs fetch indent items :
  forall t tasks s t' tasks',
    fst (Prd.walk_items fetch indent items t tasks s) = Ok (t', tasks') ->
    tasks' = (tasks ++ map entry_path (filter subdir items))%list.
Proof.
  induction items as [|item rest IH]; intros t tasks s t' tasks'.
  - simpl. intros Heq. injection Heq as _ <-. now rewrite app_nil_r.
  - cbn [Prd.walk_items filter].
    unfold Prd.visit, bind, lift_exn, ret, reraise.
    destruct (getitem item "path") as [e|path] eqn:Hp; [discriminate|].
    destruct path as [| | |p| |]; try discriminate. cbn [py_split py_format].
    rewrite (subdir_at _ _ Hp).
    change (py_in marker (split "/" p)) with (excluded p).
    destruct (excluded p).
    { destruct (getitem item "type") as [e|type]; leaf IH Hp. }
    destruct (getitem item "type") as [e|type]; [discriminate|].
    destruct (py_eq_str type "dir").
    + destruct (getitem item "name") as [e|name]; [discriminate|].
      leaf IH Hp.
    + destruct (getitem item "name") as [e|name]; [discriminate|].
      destruct (py_endswith name allow_list) as [e|[|]]; try discriminate.
      * destruct (fetch p s) as [[info| e |] s1]; try discriminate.
        destruct (get_file_content info) as [e|content]; [discriminate|].
        destruct (py_concat _ content) as [e|block]; [discriminate|].
        leaf IH Hp.
      * leaf IH Hp.
Qed.

(** X11.  The loop of the production version asks [fetch] for the paths of the
    fetchable entries and for nothing else: two fetchers that agree on
    those paths give the same run. *)
Theorem prd_fetches_allow_listed_files fetch1 fetch2 indent items :
  (forall item, In item items -> fetchable item = true ->
                forall s, fetch1 (entry_path item) s = fetch2 (entry_path item) s) ->
  forall t tasks s,
    Prd.walk_items fetch1 indent items t tasks s
    = Prd.walk_items fetch2 indent items t tasks s.
Proof.
  induction items as [|item rest IH]; intros Hsame t tasks s; [reflexivity|].
  cbn [Prd.walk_items].
  assert (Hrest : forall a b c,
             Prd.walk_items fetch1 indent rest a b c
             = Prd.walk_items fetch2 indent rest a b c).
  { apply IH. intros it Hin. apply Hsame. now right. }
  rewrite (prd_visit_ext fetch1 indent item _ _ Hrest).
  specialize (Hsame item (or_introl eq_refl)).
  unfold Prd.visit, bind, lift_exn, ret, reraise.
  destruct (getitem item "path") as [e|path] eqn:Hp; [reflexivity|].
  destruct path as [| | |p| |]; try reflexivity. cbn [py_split py_format].
  rewrite (fetchable_at _ _ Hp), (entry_path_at _ _ Hp) in Hsame.
  change (py_in marker (split "/" p)) with (excluded p).
  destruct (excluded p); [reflexivity|].
  destruct (getitem item "type") as [e|type]; [reflexivity|].
  destruct (py_eq_str type "dir"); [reflexivity|].
  destruct (getitem item "name") as [e|name]; [reflexivity|].
  destruct name as [| | |n| |]; try reflexivity. cbn [py_endswith].
  destruct (existsb (endswith n) allow_list); [|reflexivity].
  now rewrite (Hsame eq_refl s).
Qed.

(** X12.  The loop of the sequential version calls [build_directory_tree] for
    the directories that are not skipped, one level deeper, and for
    nothing else: two walkers that agree on those calls give the same
    run. *)
Theorem simple_recurs_into_kept_directories recur1 recur2 indent items :
  (forall item, In item items -> subdir item = true ->
                forall s, recur1 (entry_path item) (S indent) s
                          = recur2 (entry_path item) (S indent) s) ->
  forall t tasks s,
    Simple.walk_items recur1 indent items t tasks s
    = Simple.walk_items recur2 indent items t tasks s.
Proof.
  induction items as [|item rest IH]; intros Hsame t tasks s; [reflexivity|].
  cbn [Simple.walk_items].
  assert (Hrest : forall a b c,
             Simple.walk_items recur1 indent rest a b c
             = Simple.walk_items recur2 indent rest a b c).
  { apply IH. intros it Hin. apply Hsame. now right. }
  rewrite (simple_visit_ext recur1 indent item _ _ Hrest).
  specialize (Hsame item (or_introl eq_refl)).
  unfold Simple.visit, bind, lift_exn, ret, reraise.
  destruct (getitem item "path") as [e|path] eqn:Hp; [reflexivity|].
  destruct path as [| | |p| |]; try reflexivity. cbn [py_split py_format].
  rewrite (subdir_at _ _ Hp), (entry_path_at _ _ Hp) in Hsame.
  change (py_in marker (split "/" p)) with (excluded p).
  destruct (excluded p); [reflexivity|].
  destruct (getitem item "type") as [e|type]; [reflexivity|].
  destruct (py_eq_str type "dir"); [|reflexivity].
  destruct (getitem item "name") as [e|name]; [reflexivity|].
  now rewrite (Hsame eq_refl s).
Qed.
End Loops.

(** ** The documents *)

Section Documents.
Context `{Platform}.
Variables (owner repo : string) (token : option string).

Lemma first_block_shape fuel s :
  exists s',
    Prd.first_block owner repo token fuel s = (Diverged, s')
    \/ exists bound text,
         Prd.first_block owner repo token fuel s = (Ok (bound, text), s')
         /\ readme_part text.
Proof.
  unfold Prd.first_block, try_except, bind.
  destruct (Prd.rate_guard token s) as [[[]| e |] s1].
  - destruct (match token with
              | Some _ => Prd.fetch_repo_content owner repo token fuel "README.md"
              | None => raise ValueError "Token is required for fetching repo content."
              end s1) as [[info| e |] s2].
    + unfold lift_exn, ret, reraise.
      destruct (get_file_content info) as [e|content].
      * exists s2. right. exists true, (Prd.readme_failure e).
        split; [reflexivity|right; now exists e].
      * exists s2. right. exists true, (Prd.readme_block content).
        split; [reflexivity|left; now exists content].
    + exists s2. right. exists true, (Prd.readme_failure e).
      split; [reflexivity|right; now exists e].
    + exists s2. now left.
  - exists s1. right. exists false, (Prd.readme_failure e).
    split; [reflexivity|right; now exists e].
  - exists s1. now left.
Qed.

Lemma second_block_shape fuel sc bound text s :
  exists s',
    Prd.second_block owner repo token fuel sc bound text s = (Diverged, s')
    \/ exists tree,
         Prd.second_block owner repo token fuel sc bound text s
         = (Ok (text ++ tree), s')
         /\ tree_part tree.
Proof.
  unfold Prd.second_block, try_except, bind, raise, ret.
  destruct token as [t|].
  - destruct bound.
    + destruct (Prd.build_directory_tree owner repo (Some t) fuel sc "" 0 s)
        as [[tree| e |] s1].
      * exists s1. right. exists (Prd.tree_section tree).
        split; [reflexivity|left; now exists tree].
      * exists s1. right. exists (Prd.tree_failure e).
        split; [reflexivity|right; now exists e].
      * exists s1. now left.
    + exists s. right. eexists. split; [reflexivity|right; eexists; reflexivity].
  - exists s. right. eexists. split; [reflexivity|right; eexists; reflexivity].
Qed.

Lemma tree_part_not_empty (a b : string) : tree_part b -> a ++ b <> "".
Proof.
  intros [[tree ->]|[e ->]]; destruct a; discriminate.
Qed.

Lemma assemble_shape (fuel : nat) (sc : schedule) (s : st) :
  exists s',
    Prd.assemble owner repo token fuel sc s = (Diverged, s')
    \/ exists readme tree,
         Prd.assemble owner repo token fuel sc s = (Ok (readme ++ tree), s')
         /\ readme_part readme /\ tree_part tree /\ readme ++ tree <> "".
Proof.
  unfold Prd.assemble, bind.
  destruct (first_block_shape fuel s) as [s1 [-> | [bound [text [-> Hreadme]]]]].
  - exists s1. now left.
  - destruct (second_block_shape fuel sc bound text s1)
      as [s2 [-> | [tree [-> Htree]]]].
    + exists s2. now left.
    + exists s2. right. exists text, tree.
      repeat split; trivial. now apply tree_part_not_empty.
Qed.

End Documents.

(** X13.  A document of the production version is a README section (the block
    or the README diagnostic) followed by a tree section (the tree or the
    tree diagnostic); it is never empty. *)
Theorem prd_document_has_two_sections `{Platform} (fuel : nat) (sc : schedule)
    (url : string) (token : option string) (s : st) (doc : string) :
  fst (Prd.retrieve_github_repo_info fuel sc url token s) = Ok doc ->
  exists readme tree,
    doc = readme ++ tree /\ readme_part readme /\ tree_part tree /\ doc <> "".
Proof.
  unfold Prd.retrieve_github_repo_info, bind, lift_exn, ret, reraise.
  destruct (parse_github_url url) as [e'|[owner repo]]; [discriminate|].
  destruct (assemble_shape owner repo token fuel sc s)
    as [s' [-> | [a [b [-> [Ha [Hb Hne]]]]]]]; [discriminate|].
  simpl. intros Heq. injection Heq as <-. now exists a, b.
Qed.

(** X14.  A fault of the rate guard costs both sections.  It is reported as a
    README failure, and as [semaphore] is assigned after the guard, the
    tree step fails on the unbound name.  Nothing of the repository is
    asked for: the state is the one the guard left. *)
Theorem guard_fault_costs_both_sections `{Platform} (fuel : nat) (sc : schedule)
    (url owner repo t : string) (s s1 : st) (e : exn) :
  parse_github_url url = inr (owner, repo) ->
  Prd.rate_guard (Some t) s = (Raised e, s1) ->
  Prd.retrieve_github_repo_info fuel sc url (Some t) s
  = (Ok (Prd.readme_failure e
         ++ Prd.tree_failure (mk_exn UnboundLocalError Prd.semaphore_unbound)),
     s1).
Proof.
  intros Hparse Hguard.
  unfold Prd.retrieve_github_repo_info, bind, lift_exn, ret, reraise.
  rewrite Hparse.
  unfold Prd.assemble, Prd.first_block, Prd.second_block, try_except, bind.
  now rewrite Hguard.
Qed.

(** X15.  The only exception [retrieve_github_repo_info] of the production
    version raises is the [ValueError] of [parse_github_url]. *)
Theorem prd_retrieve_raises_for_the_locator_only `{Platform} (fuel : nat)
    (sc : schedule) (url : string) (token : option string) (s : st) (e : exn) :
  fst (Prd.retrieve_github_repo_info fuel sc url token s) = Raised e ->
  parse_github_url url = inl e /\ exc_cls e = ValueError.
Proof.
  unfold Prd.retrieve_github_repo_info, bind, lift_exn, ret, reraise.
  destruct (parse_github_url url) as [e'|[owner repo]] eqn:Hparse.
  - simpl. intros Heq. injection Heq as <-. split; [reflexivity|].
    unfold parse_github_url in Hparse.
    destruct (urlparse_path url) as [text|path].
    + now injection Hparse as <-.
    + destruct (2 <=? List.length (split "/" (strip "/" path)))%nat;
        [discriminate|].
      now injection Hparse as <-.
  - destruct (assemble_shape owner repo token fuel sc s)
      as [s' [-> | [a [b [-> _]]]]]; discriminate.
Qed.

(** ** What a walk returns *)

Section Returns.
Context `{Platform}.
Variables (owner repo : string) (token : option string).

Lemma values_ok (rs : list (result json)) :
  forall vs, Simple.values rs = Ok vs -> rs = map Ok vs.
Proof.
  induction rs as [|r rest IH]; intros vs; cbn [Simple.values].
  - intros Heq. now injection Heq as <-.
  - destruct r as [v| e |]; try discriminate.
    destruct (Simple.values rest) as [others| e |]; try discriminate.
    intros Heq. injection Heq as <-. simpl. f_equal. now apply IH.
Qed.

(** When [asyncio.gather] returns, every fetch has returned. *)
Lemma gather_ok paths s infos s' :
  Simple.gather owner repo token paths s = (Ok infos, s') ->
  Simple.start_all owner repo token paths s = (map Ok infos, s').
Proof.
  unfold Simple.gather.
  destruct (Simple.start_all owner repo token paths s) as [rs s2].
  destruct (Simple.faults rs); [|discriminate].
  intros Heq. injection Heq as Hvalues <-. f_equal. now apply values_ok.
Qed.

Lemma start_all_decoded paths :
  forall s infos s' contents,
    Simple.start_all owner repo token paths s = (map Ok infos, s') ->
    Simple.decode_all infos = inr contents ->
    Forall2 (fun path content =>
               exists sa sb info,
                 Simple.fetch_repo_content owner repo token path sa
                 = (Ok info, sb)
                 /\ get_file_content info = inr content)
            paths contents.
Proof.
  induction paths as [|p rest IH]; intros s infos s' contents;
    cbn [Simple.start_all].
  - destruct infos; [|discriminate]. intros _ Hdec.
    injection Hdec as <-. constructor.
  - destruct (Simple.fetch_repo_content owner repo token p s) as [r s1]
      eqn:Hfetch.
    destruct (Simple.start_all owner repo token rest s1) as [rs s2] eqn:Hrest.
    destruct infos as [|info infos]; [discriminate|].
    cbn [map]. intros Heq. injection Heq as -> -> <-.
    cbn [Simple.decode_all].
    destruct (get_file_content info) as [e|content] eqn:Hcontent;
      [discriminate|].
    destruct (Simple.decode_all infos) as [e|others] eqn:Hothers;
      [discriminate|].
    intros Heq. injection Heq as <-. constructor.
    + now exists s, s1, info.
    + now apply (IH s1 infos s2).
Qed.

(** X16.  What the sequential walk returns is about the walked directory
    alone.  The tree text is the one of the loop over its listing.  The
    fetches that [asyncio.gather] starts are those of the fetchable
    entries of that listing, in listing order, and the contents are, one
    for one and in that order, what [get_file_content] makes of what
    these fetches return.  The contents that the walks of the
    subdirectories return are not among them. *)
Theorem simple_contents_are_of_the_listing (fuel : nat) (root : string)
    (indent : nat) (s s' : st) (tree : string) (contents : list json) :
  Simple.build_directory_tree owner repo token (S fuel) root indent s
  = (Ok (tree, contents), s') ->
  exists listing items s1 tasks s2 infos,
    Simple.fetch_repo_content owner repo token root s = (Ok listing, s1)
    /\ py_iter listing = inr items
    /\ Simple.walk_items
         (Simple.build_directory_tree owner repo token fuel)
         indent items "" [] s1 = (Ok (tree, tasks), s2)
    /\ tasks = map entry_path (filter fetchable items)
    /\ Simple.start_all owner repo token tasks s2 = (map Ok infos, s')
    /\ Forall2 (fun path content =>
                  exists sa sb info,
                    Simple.fetch_repo_content owner repo token path sa
                    = (Ok info, sb)
                    /\ get_file_content info = inr content)
               tasks contents.
Proof.
  cbn [Simple.build_directory_tree]. unfold bind at 1 2 3, lift_exn at 1.
  destruct (Simple.fetch_repo_content owner repo token root s)
    as [[listing| e |] s1]; try discriminate.
  destruct (py_iter listing) as [e|items] eqn:Hiter; [discriminate|].
  unfold ret at 1.
  intros Hrun. exists listing, items, s1.
  destruct (Simple.walk_items (Simple.build_directory_tree owner repo token fuel)
              indent items "" [] s1) as [[[t tasks]| e |] s2] eqn:Hloop;
    try discriminate.
  revert Hrun. unfold bind, lift_exn, ret, reraise.
  destruct (Simple.gather owner repo token tasks s2) as [[infos| e |] s3]
    eqn:Hgather; try discriminate.
  destruct (Simple.decode_all infos) as [e|decoded] eqn:Hdecode;
    [discriminate|].
  intros Heq. injection Heq as <- <- <-.
  pose proof (gather_ok _ _ _ _ Hgather) as Hstarted.
  exists tasks, s2, infos.
  split; [reflexivity|]. split; [exact Hiter|]. split; [reflexivity|].
  split; [|split; [exact Hstarted|]].
  - apply (simple_tasks_are_fetchable
             (Simple.build_directory_tree owner repo token fuel)
             indent items "" [] s1 t).
    now rewrite Hloop.
  - exact (start_all_decoded tasks s2 infos s3 decoded Hstarted Hdecode).
Qed.
End Returns.

Section LevelAndSubtrees.
Context `{Platform}.

(** The answer to a request does not depend on what was asked before, so
    that the order in which the event loop lets the requests out is of no
    account. *)
Hypothesis fixed_responses :
  forall (w1 w2 : World) (r : request),
    fst (session_get w1 r) = fst (session_get w2 r).

Variables (owner repo : string) (token : option string).

Lemma join_texts (walk : schedule -> string -> M string) (tasks : list string)
    (sc : schedule) (done : Prd.table) :
  (forall sc1 sc2 p s1 s2, fst (walk sc1 p s1) = fst (walk sc2 p s2)) ->
  sound walk tasks done ->
  forall rest i,
    (forall k path, nth_error rest k = Some path ->
                    nth_error tasks (i + k) = Some path) ->
    forall tree_str s text,
      fst (Prd.join walk sc done i rest tree_str s) = Ok text ->
      exists subs,
        Forall2 (fun path sub => forall sc' s', fst (walk sc' path s') = Ok sub)
                rest subs
        /\ text = tree_str ++ fold_right append "" subs.
Proof.
  intros Hfixed Hdone. induction rest as [|path rest IH];
    intros i Hrest tree_str s text; cbn [Prd.join].
  - intros Heq. injection Heq as <-. exists []. split; [constructor|].
    simpl. now rewrite str_app_nil_r.
  - assert (Hnth : nth_error tasks i = Some path).
    { rewrite <- (Nat.add_0_r i). now apply (Hrest 0). }
    unfold bind.
    destruct (Prd.await walk sc done i path s) as [[sub| e |] s1] eqn:Hawait;
      try discriminate.
    assert (Hsub : forall sc' s', fst (walk sc' path s') = Ok sub).
    { intros sc' s'. unfold Prd.await in Hawait.
      destruct (Prd.completed i done) as [r|] eqn:Hc.
      - injection Hawait as -> _. symmetry.
        now apply (Hdone i (Ok sub) path Hc Hnth).
      - rewrite (Hfixed sc' (child sc i) path s' s). now rewrite Hawait. }
    intros Hjoin.
    destruct (IH (S i)) with (1 := fun k p Hk =>
                eq_ind_r (fun n => nth_error tasks n = Some p)
                         (Hrest (S k) p Hk) (Nat.add_succ_comm i k))
                (2 := Hjoin) as [subs [Hsubs ->]].
    exists (sub :: subs). split; [now constructor|].
    simpl. now rewrite str_app_assoc.
Qed.

(** X17.  What the walk of the production version returns, on a service
    whose answers are fixed: the text of the loop over the listing, that
    is every line of the walked directory with the fenced contents of its
    files, and after it the texts of the sub-walks: one for each directory
    of the listing that is not skipped, in listing order, each the text
    that the walk of that directory returns one level deeper, whatever
    the order the sub-walks complete in and whatever was asked before. *)
Theorem prd_tree_is_level_then_subtrees (fuel : nat) (sc : schedule)
    (root : string) (indent : nat) (s : st) (text : string) :
  fst (Prd.build_directory_tree owner repo token (S fuel) sc root indent s)
  = Ok text ->
  exists listing items level tasks subs,
    (forall s0,
        fst (Prd.fetch_repo_content owner repo token (S fuel) root s0)
        = Ok listing)
    /\ py_iter listing = inr items
    /\ (forall s0,
          fst (Prd.walk_items (Prd.fetch_repo_content owner repo token (S fuel))
                 indent items "" [] s0) = Ok (level, tasks))
    /\ tasks = map entry_path (filter subdir items)
    /\ Forall2 (fun path sub =>
                  forall sc' s0,
                    fst (Prd.build_directory_tree owner repo token fuel sc'
                           path (S indent) s0) = Ok sub)
               tasks subs
    /\ text = level ++ fold_right append "" subs.
Proof.
  cbn [Prd.build_directory_tree]. unfold bind at 1 2 3, lift_exn, ret, reraise.
  destruct (Prd.fetch_repo_content owner repo token (S fuel) root s)
    as [[listing| e |] s1] eqn:Hfetch; try discriminate.
  destruct (py_iter listing) as [e|items] eqn:Hiter; [discriminate|].
  destruct (Prd.walk_items (Prd.fetch_repo_content owner repo token (S fuel))
              indent items "" [] s1) as [[[level tasks]| e |] s2] eqn:Hloop;
    try discriminate.
  set (walk := fun sc' p =>
         Prd.build_directory_tree owner repo token fuel sc' p (S indent)).
  assert (Hwalk : forall sc1 sc2 p t1 t2,
             fst (walk sc1 p t1) = fst (walk sc2 p t2)).
  { intros. apply (walk_agree fixed_responses). }
  pose proof (run_early_sound walk tasks Hwalk sc (early sc) [] s2) as Hdone.
  destruct (Prd.run_early walk sc tasks (early sc) [] s2) as [done s3].
  simpl in Hdone. intros Hjoin.
  destruct (join_texts walk tasks sc done Hwalk
              (Hdone (fun i r p Hc => False_ind _ (eq_ind None
                  (fun o => match o with None => True | Some _ => False end)
                  I _ Hc)))
              tasks 0 (fun k p Hk => Hk) level s3 text Hjoin)
    as [subs [Hsubs ->]].
  exists listing, items, level, tasks, subs.
  split; [|split; [exact Hiter|split; [|split; [|split; [exact Hsubs|reflexivity]]]]].
  - intros s0. rewrite (steady_fetch fixed_responses owner repo token
                          (S fuel) root s0 s).
    now rewrite Hfetch.
  - intros s0.
    rewrite (steady_walk_items
               (Prd.fetch_repo_content owner repo token (S fuel)) indent items
               (fun p => steady_fetch fixed_responses owner repo token
                           (S fuel) p) "" [] s0 s1).
    now rewrite Hloop.
  - apply (prd_tasks_are_subdirs
             (Prd.fetch_repo_content owner repo token (S fuel))
             indent items "" [] s1 level).
    now rewrite Hloop.
Qed.
End LevelAndSubtrees.

(** ** The document of the sequential version *)

Lemma append_contents_fenced (contents : list json) :
  forall text doc,
    Simple.append_contents contents text = inr doc ->
    exists texts, contents = map JStr texts /\ doc = text ++ fenced texts.
Proof.
  induction contents as [|c rest IH]; intros text doc; cbn [Simple.append_contents].
  - intros Heq. injection Heq as <-. exists []. split; [reflexivity|].
    simpl. now rewrite str_app_nil_r.
  - destruct c as [| | |x| |]; try discriminate. cbn [py_concat].
    intros Hrest. destruct (IH _ _ Hrest) as [texts [-> ->]].
    exists (x :: texts). split; [reflexivity|].
    cbn [fenced]. now rewrite !str_app_assoc.
Qed.

(** X18.  A document of the sequential version is the README block or the fixed
    README line, then the tree section, then one fenced block per content
    that the walk of the root returned, in that order.  The contents are
    all strings: one that is not makes the call raise. *)
Theorem simple_document_layout `{Platform} (fuel : nat) (url : string)
    (token : option string) (s : st) (doc : string) :
  fst (Simple.retrieve_github_repo_info fuel url token s) = Ok doc ->
  exists owner repo readme s1 tree texts,
    parse_github_url url = inr (owner, repo)
    /\ (readme = Simple.readme_fallback
        \/ exists content, readme = Simple.readme_block content)
    /\ fst (Simple.build_directory_tree owner repo token fuel "" 0 s1)
       = Ok (tree, map JStr texts)
    /\ doc = readme ++ Simple.tree_section tree ++ fenced texts.
Proof.
  unfold Simple.retrieve_github_repo_info, bind at 1, lift_exn, ret, reraise.
  destruct (parse_github_url url) as [e|[owner repo]]; [discriminate|].
  unfold Simple.assemble, bind at 1.
  destruct (try_except _ _ s) as [[readme| e |] s1] eqn:Hreadme;
    try discriminate.
  assert (Hshape : readme = Simple.readme_fallback
                   \/ exists content, readme = Simple.readme_block content).
  { revert Hreadme. unfold try_except, bind, lift_exn, ret, reraise.
    destruct (Simple.fetch_repo_content owner repo token "README.md" s)
      as [[info| e |] s2]; try discriminate.
    - destruct (get_file_content info) as [e|content]; intros Heq;
        injection Heq as <- _; [now left|right; now exists content].
    - intros Heq. injection Heq as <- _. now left. }
  unfold bind, lift_exn, ret, reraise.
  destruct (Simple.build_directory_tree owner repo token fuel "" 0 s1)
    as [[[tree contents]| e |] s2] eqn:Hwalk; try discriminate.
  destruct (Simple.append_contents contents (readme ++ Simple.tree_section tree))
    as [e|text] eqn:Happend; [discriminate|].
  simpl. intros Heq. injection Heq as <-.
  destruct (append_contents_fenced _ _ _ Happend) as [texts [-> ->]].
  exists owner, repo, readme, s1, tree, texts.
  split; [reflexivity|]. split; [exact Hshape|].
  split; [now rewrite Hwalk|]. now rewrite str_app_assoc.
Qed.

(** ** The walks and the documents at concrete services *)

(** A fetcher that knows [a.py] alone is as good as any on Scenario A. *)
Lemma prd_fetches_allow_listed_files_witness :
  let P := static site_a in
  let fetch := @Prd.fetch_repo_content P "octo" "demo" None 1 in
  let only_a := fun path => if String.eqb path "a.py" then fetch path else diverge in
  let items := [entry "a.py" "a.py" "file"; entry "sub" "sub" "dir";
                entry "notes.txt" "notes.txt" "file"] in
  @Prd.walk_items P fetch 0 items "" [] (@start P tt)
  = @Prd.walk_items P only_a 0 items "" [] (@start P tt).
Proof.
  intros P fetch only_a items.
  apply (@prd_fetches_allow_listed_files P fetch only_a 0 items).
  intros item [<- | [<- | [<- | []]]] Hfetchable s;
    try (vm_compute in Hfetchable; discriminate).
  reflexivity.
Defined.

(** A walker that knows [x] and [y] alone is as good as any on a root that
    lists [x], [.github] and [y]. *)
Lemma simple_recurs_into_kept_directories_witness :
  let P := static site_two_dirs in
  let walk := @Simple.build_directory_tree P "octo" "demo" None 2 in
  let only_xy := fun path indent =>
    if String.eqb path "x" || String.eqb path "y" then walk path indent
    else diverge in
  let items := [entry "x" "x" "dir"; entry ".github" ".github" "dir";
                entry "y" "y" "dir"] in
  @Simple.walk_items P walk 0 items "" [] (@start P tt)
  = @Simple.walk_items P only_xy 0 items "" [] (@start P tt).
Proof.
  intros P walk only_xy items.
  apply (@simple_recurs_into_kept_directories P walk only_xy 0 items).
  intros item [<- | [<- | [<- | []]]] Hsubdir s;
    try (vm_compute in Hsubdir; discriminate); reflexivity.
Defined.

Lemma prd_retrieve_raises_for_the_locator_only_witness :
  let P := static site_a in
  let e := mk_exn ValueError "Invalid GitHub URL provided!" in
  @parse_github_url P "https://github.com/octo" = inl e
  /\ exc_cls e = ValueError.
Proof.
  intros P e.
  apply (@prd_retrieve_raises_for_the_locator_only P 3 in_creation_order
           "https://github.com/octo" (Some "t") (@start P tt) e).
  reflexivity.
Defined.

(** Scenario A behind a service with a low quota: the README is missing,
    the tree is built. *)
Lemma prd_document_has_two_sections_witness :
  let doc := "Failed to retrieve README.md: Resource not found." ++ nl ++ nl
             ++ "Directory Structure:" ++ nl
             ++ "a.py" ++ nl ++ "    " ++ fence ++ "A" ++ fence ++ nl
             ++ "[sub/]" ++ nl
             ++ "    b.md" ++ nl ++ "        " ++ fence ++ "B" ++ fence ++ nl
             ++ nl in
  exists readme tree,
    doc = readme ++ tree
    /\ @readme_part (static site_low_quota) readme /\ tree_part tree
    /\ doc <> "".
Proof.
  intros doc.
  apply (@prd_document_has_two_sections (static site_low_quota) 3
           in_creation_order demo_url (Some "t")
           (@start (static site_low_quota) tt) doc).
  reflexivity.
Defined.

Lemma guard_fault_costs_both_sections_witness :
  let P := static site_no_quota in
  @Prd.retrieve_github_repo_info P 3 in_creation_order demo_url (Some "t")
    (@start P tt)
  = (Ok (Prd.readme_failure (mk_exn KeyError "'rate'")
         ++ Prd.tree_failure (mk_exn UnboundLocalError Prd.semaphore_unbound)),
     @mk_st P tt [EvGet (Prd.rate_limit_request "t")]).
Proof.
  intros P.
  apply (@guard_fault_costs_both_sections P 3 in_creation_order demo_url
           "octo" "demo" "t" (@start P tt)); reflexivity.
Defined.

(** Scenario A: the root has one fetchable entry, and the walk of the root
    returns one content, the one of [a.py], although [sub/b.md] is
    fetchable too. *)
Lemma simple_contents_are_of_the_listing_witness :
  let P := static site_a in
  let run := @Simple.build_directory_tree P "octo" "demo" None 3 "" 0
               (@start P tt) in
  let tree := "a.py" ++ nl ++ "[sub/]" ++ nl ++ "    b.md" ++ nl in
  exists listing items s1 tasks s2 infos,
    @Simple.fetch_repo_content P "octo" "demo" None "" (@start P tt)
    = (Ok listing, s1)
    /\ py_iter listing = inr items
    /\ @Simple.walk_items P
         (@Simple.build_directory_tree P "octo" "demo" None 2)
         0 items "" [] s1 = (Ok (tree, tasks), s2)
    /\ tasks = map (@entry_path P) (filter fetchable items)
    /\ @Simple.start_all P "octo" "demo" None tasks s2
       = (map Ok infos, snd run)
    /\ Forall2 (fun path content =>
                  exists sa sb info,
                    @Simple.fetch_repo_content P "octo" "demo" None path sa
                    = (Ok info, sb)
                    /\ get_file_content info = inr content)
               tasks [JStr "A"].
Proof.
  intros P run tree.
  apply (@simple_contents_are_of_the_listing P "octo" "demo" None 2 "" 0
           (@start P tt) (snd run) tree [JStr "A"]).
  reflexivity.
Defined.

(** A directory listed before a file: the line of the file is in the text
    of the level, and the text of the sub-walk comes after it. *)
Lemma prd_tree_is_level_then_subtrees_witness :
  let P := static site_dir_first in
  let text := "[sub/]" ++ nl ++ "z.txt" ++ nl ++ "    b.txt" ++ nl in
  exists listing items level tasks subs,
    (forall s0,
        fst (@Prd.fetch_repo_content P "octo" "demo" None 3 "" s0) = Ok listing)
    /\ py_iter listing = inr items
    /\ (forall s0,
          fst (@Prd.walk_items P (@Prd.fetch_repo_content P "octo" "demo" None 3)
                 0 items "" [] s0) = Ok (level, tasks))
    /\ tasks = map (@entry_path P) (filter subdir items)
    /\ Forall2 (fun path sub =>
                  forall sc' s0,
                    fst (@Prd.build_directory_tree P "octo" "demo" None 2 sc'
                           path 1 s0) = Ok sub)
               tasks subs
    /\ text = level ++ fold_right append "" subs.
Proof.
  intros P text.
  apply (@prd_tree_is_level_then_subtrees P (fun w1 w2 r => eq_refl)
           "octo" "demo" None 2 in_creation_order "" 0 (@start P tt) text).
  reflexivity.
Defined.

Lemma simple_document_layout_witness :
  let P := static site_a in
  let doc := "README.md: Not found or error fetching README" ++ nl ++ nl
             ++ "Directory Structure:" ++ nl
             ++ "a.py" ++ nl ++ "[sub/]" ++ nl ++ "    b.md" ++ nl ++ nl
             ++ nl ++ fence ++ "A" ++ fence ++ nl in
  exists owner repo readme s1 tree texts,
    @parse_github_url P demo_url = inr (owner, repo)
    /\ (readme = Simple.readme_fallback
        \/ exists content, readme = @Simple.readme_block P content)
    /\ fst (@Simple.build_directory_tree P owner repo None 3 "" 0 s1)
       = Ok (tree, map JStr texts)
    /\ doc = readme ++ Simple.tree_section tree ++ fenced texts.
Proof.
  intros P doc.
  apply (@simple_document_layout P 3 demo_url None (@start P tt) doc).
  reflexivity.
Defined.
